(** * Shallow embedding of polypyus/graph.py

    The fragment trie ([Graph]/[Edge]), insertion with edge splitting,
    finalization, the sequential scanner [match] and the parallel driver
    of [src/polypyus/graph.py].

    Conventions of the embedding:
    - Python ints are [Z]; node ids and list indices are [nat].
    - [Edge] objects live in exactly one list of the graph, so they are
      modelled as values stored in those lists; an in-place mutation of an
      edge is a write-back at its position.
    - [defaultdict(list)] maps are association lists in insertion order;
      subscripting one ([d[k]]) inserts [(k, [])] when [k] is absent, as
      Python does.
    - Graph methods run in a state-and-exception monad [M] over [Graph];
      the Python exceptions that can arise are [IndexError] and
      [ZeroDivisionError]; [OutOfFuel] marks a loop or recursion that did
      not finish within the bound chosen by the model (Python would keep
      running or hit its recursion limit).
    - Payloads ([data: object]) are [option D]; [None] is Python's [None]. *)

From Stdlib Require Import List ZArith QArith Lia Bool Permutation Relations Sorted.
Import ListNotations.
Open Scope Z_scope.

(** ** Exceptions and the graph monad *)

Inductive exn := IndexError | ZeroDivisionError | OutOfFuel.

Inductive res (A : Type) := Ok (a : A) | Err (e : exn).
Arguments Ok {A} a.
Arguments Err {A} e.

(** ** MatchFragment (polypyus.tools, not part of src/) *)

(** Modelled from the spec: [MatchFragment] of [polypyus.tools] (section 6,
    "Fragment contract"): a byte template with one wildcard flag per
    position; [len] is the template length; [longest_common_prefix] counts
    the leading positions on which two fragments agree (a wildcard agrees
    with a wildcard, a literal byte with the same literal byte);
    [split_at] keeps the prefix and returns the suffix; [drop_before]
    drops a prefix; comparison with raw bytes is wildcard-aware; the
    wildcard ratio is the fraction of wildcard positions. *)
Record MatchFragment := mkFragment {
  template : list Z;
  fuzziness : list bool
}.

Definition frag_len (f : MatchFragment) : Z := Z.of_nat (length (template f)).

Fixpoint lcp_aux (t1 : list Z) (z1 : list bool) (t2 : list Z) (z2 : list bool)
  : nat :=
  match t1, z1, t2, z2 with
  | b1 :: t1', f1 :: z1', b2 :: t2', f2 :: z2' =>
      if Bool.eqb f1 f2 && (f1 || (b1 =? b2))
      then S (lcp_aux t1' z1' t2' z2') else O
  | _, _, _, _ => O
  end.

Definition longest_common_prefix (f g : MatchFragment) : Z :=
  Z.of_nat (lcp_aux (template f) (fuzziness f) (template g) (fuzziness g)).

(** [split_at]: the fragment itself becomes the prefix, the suffix is
    returned; the pair is (new self, returned suffix). *)
Definition split_at (f : MatchFragment) (at_ : Z) : MatchFragment * MatchFragment :=
  let n := Z.to_nat at_ in
  (mkFragment (firstn n (template f)) (firstn n (fuzziness f)),
   mkFragment (skipn n (template f)) (skipn n (fuzziness f))).

Definition drop_before (f : MatchFragment) (at_ : Z) : MatchFragment :=
  let n := Z.to_nat at_ in
  mkFragment (skipn n (template f)) (skipn n (fuzziness f)).

Fixpoint eq_bytes (t : list Z) (z : list bool) (bs : list Z) : bool :=
  match t, z, bs with
  | [], _, [] => true
  | b :: t', f :: z', c :: bs' => (f || (b =? c)) && eq_bytes t' z' bs'
  | _, _, _ => false
  end.

(** [fragment == bytes]. *)
Definition frag_eq_bytes (f : MatchFragment) (bs : list Z) : bool :=
  eq_bytes (template f) (fuzziness f) bs.

Definition fuzz_ratio (f : MatchFragment) : Q :=
  inject_Z (Z.of_nat (length (filter (fun b => b) (fuzziness f))))
  / inject_Z (frag_len f).

(** [fragment.fuzziness[0]] and [fragment.template[0]]. *)
Definition fuzziness0 (f : MatchFragment) : res bool :=
  match fuzziness f with b :: _ => Ok b | [] => Err IndexError end.

Definition template0 (f : MatchFragment) : res Z :=
  match template f with b :: _ => Ok b | [] => Err IndexError end.

(** ** Edge *)

Inductive PathClassification := DISJUNCT | EQUAL | PART | BRANCH.

Record Edge := mkEdge {
  to : nat;
  path : MatchFragment;
  len : Z;
  match_size : Z;
  weight : Q
}.

(** [Edge.__init__]. *)
Definition new_edge (to_ : nat) (p : MatchFragment) (ms : option Z) : Edge :=
  let l := frag_len p in
  let m := match ms with None => l | Some m => m end in
  mkEdge to_ p l m (inject_Z m).

Definition edge_matches (e : Edge) (against : list Z) : bool :=
  frag_eq_bytes (path e) against.

Definition classify_path (e : Edge) (p : MatchFragment) : PathClassification * Z :=
  let lp := frag_len p in
  let longest_prefix := longest_common_prefix (path e) p in
  let classification :=
    if longest_prefix =? len e then
      if lp =? len e then EQUAL else PART
    else if longest_prefix =? 0 then DISJUNCT
    else BRANCH in
  (classification, longest_prefix).

Definition set_to (e : Edge) (t : nat) : Edge :=
  mkEdge t (path e) (len e) (match_size e) (weight e).
Definition set_path_len (e : Edge) (p : MatchFragment) (l : Z) : Edge :=
  mkEdge (to e) p l (match_size e) (weight e).
Definition set_match_size (e : Edge) (m : Z) : Edge :=
  mkEdge (to e) (path e) (len e) m (weight e).
Definition set_weight (e : Edge) (w : Q) : Edge :=
  mkEdge (to e) (path e) (len e) (match_size e) w.

(** ** defaultdict(list) and list helpers *)

Section DefaultDict.
Context {K V : Type} (keq : K -> K -> bool).

Fixpoint dd_find (k : K) (m : list (K * list V)) : option (list V) :=
  match m with
  | [] => None
  | (k', v) :: m' => if keq k k' then Some v else dd_find k m'
  end.

(** [d[k]] on a defaultdict: the value, and the dict, which gains
    [(k, [])] when [k] was absent. *)
Definition dd_get (k : K) (m : list (K * list V)) : list V * list (K * list V) :=
  match dd_find k m with
  | Some v => (v, m)
  | None => ([], m ++ [(k, [])])
  end.

(** [d[k] = v] for a key already present (position kept). *)
Fixpoint dd_replace (k : K) (v : list V) (m : list (K * list V)) : list (K * list V) :=
  match m with
  | [] => []
  | (k', v') :: m' => if keq k k' then (k', v) :: m' else (k', v') :: dd_replace k v m'
  end.

(** [d[k].append(x)]. *)
Definition dd_append (k : K) (x : V) (m : list (K * list V)) : list (K * list V) :=
  let (v, m1) := dd_get k m in dd_replace k (v ++ [x]) m1.

End DefaultDict.

Fixpoint upd_nth {A : Type} (n : nat) (f : A -> A) (l : list A) : list A :=
  match l, n with
  | [], _ => []
  | x :: l', O => f x :: l'
  | x :: l', S n' => x :: upd_nth n' f l'
  end.

(** Python [l[i]] for an index [i >= 0]. *)
Definition py_nth {A : Type} (l : list A) (n : nat) : res A :=
  match nth_error l n with Some x => Ok x | None => Err IndexError end.

(** Python [l[i]] for any int [i] (negative indices count from the end). *)
Definition py_index {A : Type} (l : list A) (i : Z) : res A :=
  let j := if i <? 0 then i + Z.of_nat (length l) else i in
  if j <? 0 then Err IndexError else py_nth l (Z.to_nat j).

(** Python slice [l[a:b]]. *)
Definition py_slice {A : Type} (l : list A) (a b : Z) : list A :=
  let n := Z.of_nat (length l) in
  let norm i := let i' := if i <? 0 then i + n else i in Z.max 0 (Z.min i' n) in
  let a' := Z.to_nat (norm a) in
  let b' := Z.to_nat (norm b) in
  firstn (b' - a') (skipn a' l).

(** ** Graph *)

Section Graph.
Context {D : Type}.

Record Graph := mkGraph {
  data : list (nat * list (option D));
  adjacency : list (list (Z * list Edge));
  fuzzy_starts : list (list Edge);
  longest_path : Z;
  bin_count : Z;
  nodes : nat;
  finalized : bool
}.

(** [Graph.__init__]. *)
Definition new_graph (bc : Z) : Graph :=
  mkGraph [] [[]] [[]] 0 bc 1 false.

Definition M (A : Type) := Graph -> res (A * Graph).

Definition ret {A} (a : A) : M A := fun g => Ok (a, g).
Definition bind {A B} (m : M A) (k : A -> M B) : M B :=
  fun g => match m g with Ok (a, g') => k a g' | Err e => Err e end.
Definition throw {A} (e : exn) : M A := fun _ => Err e.
Definition lift {A} (r : res A) : M A :=
  fun g => match r with Ok a => Ok (a, g) | Err e => Err e end.
Definition gets {A} (f : Graph -> A) : M A := fun g => Ok (f g, g).
Definition modify (f : Graph -> Graph) : M unit := fun g => Ok (tt, f g).

End Graph.

Arguments Graph : clear implicits.
Arguments M : clear implicits.

Notation "x <- m ;; k" := (bind m (fun x => k))
  (at level 61, m at next level, right associativity).
Notation "m ;;; k" := (bind m (fun _ => k))
  (at level 61, right associativity).

(** ** Graph methods: nodes, edges, splitting, insertion *)

Section Methods.
Context {D : Type}.

Definition with_data (g : Graph D) x : Graph D := mkGraph x (adjacency g) (fuzzy_starts g) (longest_path g) (bin_count g) (nodes g) (finalized g).
Definition with_adjacency (g : Graph D) x : Graph D := mkGraph (data g) x (fuzzy_starts g) (longest_path g) (bin_count g) (nodes g) (finalized g).
Definition with_fuzzy_starts (g : Graph D) x : Graph D := mkGraph (data g) (adjacency g) x (longest_path g) (bin_count g) (nodes g) (finalized g).
Definition with_longest_path (g : Graph D) x : Graph D := mkGraph (data g) (adjacency g) (fuzzy_starts g) x (bin_count g) (nodes g) (finalized g).
Definition with_finalized (g : Graph D) x : Graph D := mkGraph (data g) (adjacency g) (fuzzy_starts g) (longest_path g) (bin_count g) (nodes g) x.

(** [self.data[n].append(d)] *)
Definition append_data (n : nat) (d : option D) : M D unit :=
  modify (fun g => with_data g (dd_append Nat.eqb n d (data g))).

(** [Graph._to_bin] *)
Definition to_bin (b : Z) : M D Z :=
  bc <- gets bin_count;;
  if bc =? 0 then throw ZeroDivisionError else ret (b mod bc).

(** [Graph._new_node] *)
Definition new_node (d : option D) : M D unit :=
  fun g =>
    Ok (tt, mkGraph
              (match d with
               | Some _ => dd_append Nat.eqb (nodes g) d (data g)
               | None => data g
               end)
              (adjacency g ++ [[]]) (fuzzy_starts g ++ [[]])
              (longest_path g) (bin_count g) (S (nodes g)) (finalized g)).

(** [Graph._add_edge] *)
Definition add_edge (from_ to_ : nat) (p : MatchFragment) (ms : option Z) : M D unit :=
  let e := new_edge to_ p ms in
  fz <- lift (fuzziness0 p);;
  if fz then
    fs <- gets fuzzy_starts;;
    _ <- lift (py_nth fs from_);;
    modify (fun g => with_fuzzy_starts g (upd_nth from_ (fun l => l ++ [e]) (fuzzy_starts g)))
  else
    b <- lift (template0 p);;
    bin_ <- to_bin b;;
    adj <- gets adjacency;;
    _ <- lift (py_nth adj from_);;
    modify (fun g => with_adjacency g (upd_nth from_ (dd_append Z.eqb bin_ e) (adjacency g))).

(** [Graph._split_edge]; the mutated [edge] is returned. *)
Definition split_edge (e : Edge) (at_ : Z) : M D Edge :=
  let (prefix, fragment) := split_at (path e) at_ in
  let e1 := set_path_len e prefix at_ in
  new_node None;;;
  n <- gets nodes;;
  add_edge (n - 1)%nat (to e1) fragment (Some (match_size e1));;;
  let e2 := set_to e1 (n - 1)%nat in
  ret (set_match_size e2 (match_size e2 - at_)).

(** The list object an edge of [insert]'s loop lives in. *)
Inductive EdgeList := ExactBin (node : nat) (bin_ : Z) | FuzzyStarts (node : nat).

(** Apply [f] to the edge at position [i] of the list [loc] (an in-place
    mutation of that edge object). *)
Definition update_edge_at (loc : EdgeList) (i : nat) (f : Edge -> Edge) : M D unit :=
  match loc with
  | ExactBin n b =>
      modify (fun g => with_adjacency g
        (upd_nth n (fun adj =>
           match dd_find Z.eqb b adj with
           | Some es => dd_replace Z.eqb b (upd_nth i f es) adj
           | None => adj
           end) (adjacency g)))
  | FuzzyStarts n =>
      modify (fun g => with_fuzzy_starts g
        (upd_nth n (upd_nth i f) (fuzzy_starts g)))
  end.

(** Write a mutated edge back at position [i] of its list. *)
Definition set_edge_at (loc : EdgeList) (i : nat) (e : Edge) : M D unit :=
  update_edge_at loc i (fun _ => e).

(** Outcome of the [for edge in edges] loop of [insert]. *)
Inductive InsertStep :=
  | Descend (next : nat) (rest : MatchFragment)   (* PART: break *)
  | Return (r : option bool)                      (* return *)
  | Exhausted.                                    (* for ... else *)

Fixpoint insert_edges (ms : Z) (d : option D) (p : MatchFragment)
    (loc : EdgeList) (i : nat) (edges : list Edge) : M D InsertStep :=
  match edges with
  | [] => ret Exhausted
  | e :: es =>
      let (class_, prefix_len) := classify_path e p in
      match class_ with
      | PART => ret (Descend (to e) (drop_before p prefix_len))
      | EQUAL => append_data (to e) d;;; ret (Return (Some false))
      | BRANCH =>
          e' <- split_edge e prefix_len;;
          set_edge_at loc i e';;;
          let p' := drop_before p prefix_len in
          n <- gets nodes;;
          if frag_len p' >? 0 then
            add_edge (n - 1)%nat n p' (Some ms);;;
            new_node d;;;
            ret (Return (Some true))
          else
            append_data (n - 1)%nat d;;;
            ret (Return (Some true))
      | DISJUNCT => insert_edges ms d p loc (S i) es
      end
  end.

(** The candidate edge list of [insert] at [next_node] (the bin lookup
    inserts an empty bin when absent). *)
Definition candidate_edges (next_node : nat) (p : MatchFragment) : M D (EdgeList * list Edge) :=
  fz <- lift (fuzziness0 p);;
  if fz then
    fs <- gets fuzzy_starts;;
    es <- lift (py_nth fs next_node);;
    ret (FuzzyStarts next_node, es)
  else
    b <- lift (template0 p);;
    bin_ <- to_bin b;;
    adj <- gets adjacency;;
    a <- lift (py_nth adj next_node);;
    let (es, a') := dd_get Z.eqb bin_ a in
    modify (fun g => with_adjacency g (upd_nth next_node (fun _ => a') (adjacency g)));;;
    ret (ExactBin next_node bin_, es).

(** The [while len(path) > 0] loop of [insert]. *)
Fixpoint insert_loop (fuel : nat) (ms : Z) (d : option D) (next_node : nat)
    (p : MatchFragment) : M D (option bool) :=
  match fuel with
  | O => throw OutOfFuel
  | S fuel' =>
      if frag_len p >? 0 then
        le <- candidate_edges next_node p;;
        let (loc, edges) := le in
        st <- insert_edges ms d p loc 0 edges;;
        match st with
        | Descend n p' => insert_loop fuel' ms d n p'
        | Return r => ret r
        | Exhausted =>
            n <- gets nodes;;
            add_edge next_node n p (Some ms);;;
            new_node d;;;
            ret (Some true)
        end
      else ret None
  end.

(** [Graph.insert]; [None] is the Python [None] returned when the loop
    falls through. The loop bound is one more than the fragment length. *)
Definition insert (p : MatchFragment) (d : option D) : M D (option bool) :=
  modify (fun g => with_finalized g false);;;
  insert_loop (S (length (template p))) (frag_len p) d 0 p.

End Methods.

(** ** Finalization *)

Section Finalize.
Context {D : Type}.

Fixpoint indexed (loc : EdgeList) (i : nat) (es : list Edge) : list (EdgeList * nat * Edge) :=
  match es with
  | [] => []
  | e :: es' => (loc, i, e) :: indexed loc (S i) es'
  end.

(** [Graph.edges_at]: the exact-bin edges in bin order, then the
    fuzzy-start edges, each with the list and position it lives at. *)
Definition edges_at (node : nat) : M D (list (EdgeList * nat * Edge)) :=
  adj <- gets adjacency;;
  a <- lift (py_nth adj node);;
  fs <- gets fuzzy_starts;;
  fz <- lift (py_nth fs node);;
  ret (flat_map (fun '(k, es) => indexed (ExactBin node k) 0 es) a
       ++ indexed (FuzzyStarts node) 0 fz).

Definition sumQ (l : list Q) : Q := fold_left Qplus l 0%Q.
Definition sumZ (l : list Z) : Z := fold_left Z.add l 0.

(** [weighted_mean] inside [_get_mean_fuzziness]. *)
Definition weighted_mean (ratios : list Q) (counts : list Z) : Q * Z :=
  let num := sumZ counts in
  if num =? 0 then (0%Q, 0)
  else (sumQ (map (fun '(r, c) => r * inject_Z c)%Q (combine ratios counts))
        / inject_Z num, num)%Q.

(** [Graph._get_mean_fuzziness] *)
Fixpoint mean_fuzziness (fuel : nat) (node : nat) : M D (Q * Z) :=
  match fuel with
  | O => throw OutOfFuel
  | S fuel' =>
      locs <- edges_at node;;
      let fix go (l : list (EdgeList * nat * Edge)) (ratios : list Q) (counts : list Z)
          : M D (Q * Z) :=
        match l with
        | [] => ret (weighted_mean ratios counts)
        | (loc, i, e) :: l' =>
            tc <- mean_fuzziness fuel' (to e);;
            let (t_ratio, t_count) := tc in
            let (ratio, count) :=
              weighted_mean [fuzz_ratio (path e); t_ratio] [frag_len (path e); t_count] in
            update_edge_at loc i (fun e0 => set_weight e0 ratio);;;
            go l' (ratios ++ [ratio]) (counts ++ [count])
        end in
      go locs [] []
  end.

(** [Graph._get_max_match_size] *)
Fixpoint max_match_size (fuel : nat) (node : nat) : M D Z :=
  match fuel with
  | O => throw OutOfFuel
  | S fuel' =>
      locs <- edges_at node;;
      let fix go (l : list (EdgeList * nat * Edge)) (acc : Z) : M D Z :=
        match l with
        | [] => ret acc
        | (loc, i, e) :: l' =>
            m <- max_match_size fuel' (to e);;
            let w := Z.max m (match_size e) in
            update_edge_at loc i (fun e0 => set_weight e0 (inject_Z w));;;
            go l' (Z.max w acc)
        end in
      go locs 0
  end.

(** Python's stable [sorted(key=attrgetter("weight"))]: insertion sort
    that places an element after every earlier element it does not
    strictly precede. *)
Fixpoint ins_by (before : Edge -> Edge -> bool) (x : Edge) (l : list Edge) : list Edge :=
  match l with
  | [] => [x]
  | y :: l' => if before x y then x :: l else y :: ins_by before x l'
  end.

Definition sorted_by (reverse : bool) (l : list Edge) : list Edge :=
  let before x y :=
    if reverse then negb (Qle_bool (weight x) (weight y))
    else negb (Qle_bool (weight y) (weight x)) in
  fold_left (fun acc x => ins_by before x acc) l [].

(** [Graph._sort_edges_by_weight] *)
Definition sort_edges_by_weight (reverse : bool) : M D unit :=
  n <- gets nodes;;
  let fix go (nodes_left : list nat) : M D unit :=
    match nodes_left with
    | [] => ret tt
    | node :: rest =>
        fs <- gets fuzzy_starts;;
        fz <- lift (py_nth fs node);;
        modify (fun g => with_fuzzy_starts g
                  (upd_nth node (fun _ => sorted_by reverse fz) (fuzzy_starts g)));;;
        adj <- gets adjacency;;
        a <- lift (py_nth adj node);;
        modify (fun g => with_adjacency g
                  (upd_nth node (fun _ => map (fun '(k, es) => (k, sorted_by reverse es)) a)
                     (adjacency g)));;;
        go rest
    end in
  go (seq 0 n).

(** [Graph.finalize]; the recursions are bounded by one more than the
    number of nodes. *)
Definition finalize : M D unit :=
  fin <- gets finalized;;
  if fin then ret tt
  else
    n <- gets nodes;;
    _ <- mean_fuzziness (S n) 0;;
    sort_edges_by_weight true;;;
    lp <- max_match_size (S n) 0;;
    modify (fun g => with_longest_path g lp);;;
    sort_edges_by_weight false;;;
    modify (fun g => with_finalized g true).

End Finalize.

(** ** Sequential scanner [Graph.match] *)

Section Match.
Context {D : Type}.

(** [MatchRes]: (payload list, size, end address). *)
Definition MatchRes := (list (option D) * Z * Z)%type.

Definition is_nonempty {A : Type} (l : list A) : bool :=
  match l with [] => false | _ :: _ => true end.

Definition edge_count (g : Graph D) : nat :=
  fold_left Nat.add
    (map (fun adj => fold_left Nat.add (map (fun '(_, es) => length es) adj) 0%nat)
         (adjacency g)
     ++ map (@length Edge) (fuzzy_starts g)) 0%nat.

(** One pass of the body of [while edge_stack:]. The stack is kept with
    its top first: Python's [pop()] takes the head, and [extend(xs)]
    puts [rev xs] in front. *)
Inductive InnerStep :=
  | Continue (stack : list (Z * Edge)) (intermediate : option MatchRes)
  | Break (y : MatchRes) (newpos : Z).

Definition inner_step (target : list Z) (offset : Z) (p : Z) (edge : Edge)
    (rest : list (Z * Edge)) (intermediate : option MatchRes) : M D InnerStep :=
  if edge_matches edge (py_slice target p (p + len edge)) then
    dm <- gets data;;
    let (dat, dm') := dd_get Nat.eqb (to edge) dm in
    modify (fun g => with_data g dm');;;
    st <- (if is_nonempty dat then
             bins <- gets adjacency;;
             a <- lift (py_nth bins (to edge));;
             nonleaf <- (if is_nonempty a then ret true
                         else fs <- gets fuzzy_starts;;
                              f <- lift (py_nth fs (to edge));;
                              ret (is_nonempty f));;
             if negb nonleaf then
               ret (inl (Break (dat, match_size edge, p + len edge + offset) (p + len edge)))
             else
               match intermediate with
               | Some (_, old_size, _) =>
                   if match_size edge <=? old_size then ret (inl (Continue rest intermediate))
                   else ret (inr (Some (dat, match_size edge, p + len edge)))
               | None => ret (inr (Some (dat, match_size edge, p + len edge)))
               end
           else ret (inr intermediate));;
    match st with
    | inl out => ret out
    | inr inter =>
        match py_index target (p + len edge) with
        | Err _ => ret (Continue rest inter)          (* except IndexError: continue *)
        | Ok b =>
            bin_id <- to_bin b;;
            bins <- gets adjacency;;
            a <- lift (py_nth bins (to edge));;
            let (es, a') := dd_get Z.eqb bin_id a in
            modify (fun g => with_adjacency g (upd_nth (to edge) (fun _ => a') (adjacency g)));;;
            fs <- gets fuzzy_starts;;
            f <- lift (py_nth fs (to edge));;
            let e_l := len edge in
            ret (Continue (rev (map (fun t => (p + e_l, t)) (es ++ f)) ++ rest) inter)
        end
    end
  else ret (Continue rest intermediate).

Inductive InnerOut :=
  | Broke (y : MatchRes) (newpos : Z)          (* break out of the while *)
  | Drained (intermediate : option MatchRes).  (* while ... else *)

Fixpoint inner_loop (fuel : nat) (target : list Z) (offset : Z)
    (stack : list (Z * Edge)) (intermediate : option MatchRes) : M D InnerOut :=
  match fuel with
  | O => throw OutOfFuel
  | S fuel' =>
      match stack with
      | [] => ret (Drained intermediate)
      | (p, edge) :: rest =>
          st <- inner_step target offset p edge rest intermediate;;
          match st with
          | Break y np => ret (Broke y np)
          | Continue s i => inner_loop fuel' target offset s i
          end
      end
  end.

(** One iteration of [while pos < end_pos:] up to the realignment: the
    match it yields (if any) and the new [pos]. The inner loop is bounded
    by one more than the number of edges. *)
Definition match_body (target : list Z) (offset pos : Z) : M D (option MatchRes * Z) :=
  b <- lift (py_index target pos);;
  bin_id <- to_bin b;;
  bins <- gets adjacency;;
  a0 <- lift (py_nth bins 0);;
  let (es, a0') := dd_get Z.eqb bin_id a0 in
  modify (fun g => with_adjacency g (upd_nth 0 (fun _ => a0') (adjacency g)));;;
  fs <- gets fuzzy_starts;;
  f0 <- lift (py_nth fs 0);;
  k <- gets edge_count;;
  out <- inner_loop (S k) target offset (rev (map (fun e => (pos, e)) (es ++ f0))) None;;
  match out with
  | Broke y np => ret (Some y, np)
  | Drained (Some (dat, ms, p)) => ret (Some (dat, ms, p + offset), p)
  | Drained None => ret (None, pos + 1)
  end.

(** [pos += (-pos - offset) % align] *)
Definition realign (offset align pos : Z) : res Z :=
  if align =? 0 then Err ZeroDivisionError
  else Ok (pos + (- pos - offset) mod align).

Definition opt_list {A : Type} (o : option A) : list A :=
  match o with Some a => [a] | None => [] end.

(** The generator's run: the matches it yields, the exception it ends
    with ([None] when it returns), and the graph afterwards. *)
Definition Run := (list MatchRes * option exn * Graph D)%type.

Fixpoint match_loop (fuel : nat) (target : list Z) (offset align pos : Z)
    (acc : list MatchRes) (g : Graph D) : Run :=
  match fuel with
  | O => (rev acc, Some OutOfFuel, g)
  | S fuel' =>
      if pos <? Z.of_nat (length target) then
        match match_body target offset pos g with
        | Err e => (rev acc, Some e, g)
        | Ok ((y, pos'), g') =>
            let acc' := opt_list y ++ acc in
            match realign offset align pos' with
            | Err e => (rev acc', Some e, g')
            | Ok pos'' => match_loop fuel' target offset align pos'' acc' g'
            end
        end
      else (rev acc, None, g)
  end.

(** [Graph.match] on a bytes target; the outer loop is bounded by one
    more than the target length. *)
Definition match_ (g : Graph D) (target : list Z) (offset align : Z) : Run :=
  match finalize g with
  | Err e => ([], Some e, g)
  | Ok (_, g1) => match_loop (S (length target)) target offset align 0 [] g1
  end.

(** One pass of the outer [while pos < end_pos:] as a relation on
    (pos, graph): a match attempt at [pos] that finishes, then the
    realignment. [match_loop] takes exactly these steps
    ([match_loop_step] below). *)
Inductive outer_step (target : list Z) (offset align : Z) : Z * Graph D -> Z * Graph D -> Prop :=
  | outer_step_intro pos g y pos' g' pos'' :
      pos < Z.of_nat (length target) ->
      match_body target offset pos g = Ok ((y, pos'), g') ->
      realign offset align pos' = Ok pos'' ->
      outer_step target offset align (pos, g) (pos'', g').

End Match.

(** ** Parallel driver *)

Section Driver.
Context {D : Type}.

(** A partition slice [slice(start, stop)] of the binary. The slices
    themselves come from [slice_partitions] (outside src/); the driver's
    behaviour is stated for every list of slices. *)
Definition Slice := (Z * Z)%type.

(** An item of the results queue: a match, or the [None] sentinel. *)
Definition QItem := option (MatchRes (D:=D)).

(** [yield_matches_to_queue]: every yielded match is put on the queue,
    then the sentinel; an exception raised by [match] propagates before
    the sentinel is put. *)
Definition yield_matches_to_queue (g : Graph D) (target : list Z) (offset align : Z)
  : list QItem * option exn * Graph D :=
  let '(ys, err, g') := match_ g target offset align in
  (map Some ys ++ match err with None => [None] | Some _ => [] end, err, g').

(** [worker] run on the jobs it takes from the job queue, in order: it
    stops when the queue is empty ([Empty]) or when an exception reaches
    [@logger.catch]. It scans with its own copy of the graph. *)
Fixpoint worker (g : Graph D) (binary : list Z) (jobs : list (Slice * Z))
  : list QItem * option exn :=
  match jobs with
  | [] => ([], None)
  | ((start, stop), align) :: jobs' =>
      let '(out, err, g') :=
        yield_matches_to_queue g (py_slice binary start stop) start align in
      match err with
      | Some e => (out, Some e)
      | None => let '(out', err') := worker g' binary jobs' in (out ++ out', err')
      end
  end.

(** [prepartioned_graph_match]: the sequential scan of each partition
    slice in turn, chained; the same graph object is used for every
    slice, and an exception raised while scanning a slice ends the
    chain. *)
Fixpoint prepartioned_graph_match (g : Graph D) (binary : list Z) (partitions : list Slice)
    (align : Z) : list (MatchRes (D:=D)) * option exn * Graph D :=
  match partitions with
  | [] => ([], None, g)
  | (start, stop) :: ps =>
      let '(ys, err, g') := match_ g (py_slice binary start stop) start align in
      match err with
      | Some e => (ys, Some e, g')
      | None =>
          let '(ys', err', g'') := prepartioned_graph_match g' binary ps align in
          (ys ++ ys', err', g'')
      end
  end.

(** The jobs taken by worker [w] when the [k]-th job of the queue is
    taken by worker [nth k assign]. *)
Fixpoint jobs_of {J : Type} (w : nat) (assign : list nat) (jobs : list J) : list J :=
  match assign, jobs with
  | a :: assign', j :: jobs' =>
      if Nat.eqb a w then j :: jobs_of w assign' jobs' else jobs_of w assign' jobs'
  | _, _ => []
  end.

(** The queue outputs of the [workers] processes of
    [parallel_prepartioned_graph_match]. *)
Definition worker_outputs (g : Graph D) (binary : list Z) (slices : list Slice)
    (align : Z) (workers : nat) (assign : list nat) : list (list QItem * option exn) :=
  map (fun w => worker g binary (map (fun s => (s, align)) (jobs_of w assign slices)))
      (seq 0 workers).

(** The merge loop [while done < work:] over the items the driver reads
    from [ret_queue], in order: the matches it yields, and the unread
    rest of the queue when the loop exits ([None] when [get()] blocks on
    an empty queue). *)
Fixpoint merge_loop (done work : nat) (q : list QItem)
  : list (MatchRes (D:=D)) * option (list QItem) :=
  if Nat.ltb done work then
    match q with
    | [] => ([], None)
    | None :: q' => merge_loop (S done) work q'
    | Some m :: q' => let (ys, r) := merge_loop done work q' in (m :: ys, r)
    end
  else ([], Some q).

End Driver.

(** Interleavings of the workers' pushes on the shared results queue. *)
Inductive merge {A : Type} : list A -> list A -> list A -> Prop :=
  | merge_nil : merge [] [] []
  | merge_l x l1 l2 l : merge l1 l2 l -> merge (x :: l1) l2 (x :: l)
  | merge_r x l1 l2 l : merge l1 l2 l -> merge l1 (x :: l2) (x :: l).

Inductive interleaving {A : Type} : list (list A) -> list A -> Prop :=
  | il_nil : interleaving [] []
  | il_cons o os q q' : interleaving os q' -> merge o q' q -> interleaving (o :: os) q.

Definition count_sentinels {D : Type} (q : list (QItem (D:=D))) : nat :=
  length (filter (fun x => match x with None => true | Some _ => false end) q).

Definition matches_of {D : Type} (q : list (QItem (D:=D))) : list (MatchRes (D:=D)) :=
  flat_map (fun x => match x with Some m => [m] | None => [] end) q.

(** Pure reads of a defaultdict and of a node, used to state properties. *)
Definition dd_value {K V : Type} (keq : K -> K -> bool) (k : K) (m : list (K * list V)) : list V :=
  match dd_find keq k m with Some v => v | None => [] end.

(** [self.data[n]] *)
Definition node_data {D : Type} (g : Graph D) (n : nat) : list (option D) :=
  dd_value Nat.eqb n (data g).

(** [self.adjacency[n][k]] *)
Definition bin_edges {D : Type} (g : Graph D) (n : nat) (k : Z) : list Edge :=
  dd_value Z.eqb k (nth n (adjacency g) []).

(** All edges leaving node [n]: its exact bins, then its fuzzy starts. *)
Definition node_edges {D : Type} (g : Graph D) (n : nat) : list Edge :=
  flat_map snd (nth n (adjacency g) []) ++ nth n (fuzzy_starts g) [].

(** Two graphs hold the same structure when every read the trie's users
    make gives the same answer: each node's payloads, each bin of each
    node, each node's edges in iteration order ([edges_at]), the
    fuzzy-start lists, and the scalar fields. *)
Definition same_structure {D : Type} (g g' : Graph D) : Prop :=
  (forall n, node_data g n = node_data g' n) /\
  length (adjacency g) = length (adjacency g') /\
  (forall n k, bin_edges g n k = bin_edges g' n k) /\
  (forall n, node_edges g n = node_edges g' n) /\
  fuzzy_starts g = fuzzy_starts g' /\
  nodes g = nodes g' /\ longest_path g = longest_path g' /\
  bin_count g = bin_count g' /\ finalized g = finalized g'.

(** An edge leading to one of [N] nodes, with a length that is not
    negative. *)
Definition edge_ok (N : nat) (e : Edge) : Prop := (to e < N)%nat /\ 0 <= len e.

(** A well-formed graph: one bin map and one fuzzy-start list per node
    (the root at least), [nodes] within them, and every edge well
    formed. *)
Definition wf_graph {D : Type} (g : Graph D) : Prop :=
  length (fuzzy_starts g) = length (adjacency g) /\
  (0 < length (adjacency g))%nat /\
  (nodes g <= length (adjacency g))%nat /\
  (forall n, Forall (edge_ok (length (adjacency g))) (node_edges g n)).

(** The outcome of a step run from a well-formed graph with [N] nodes
    when it raises no IndexError: an exception other than IndexError, or
    a well-formed graph with the same [N] nodes. *)
Definition keeps_wf {D A : Type} (N : nat) (r : res (A * Graph D)) : Prop :=
  match r with
  | Err e => e <> IndexError
  | Ok (_, g') => wf_graph g' /\ length (adjacency g') = N
  end.

(** ** Invariants kept by [Graph()] and [insert] *)

(** What [insert] keeps for every edge: it leads to one of [N] nodes, and
    its [len] field is the length of its fragment. *)
Definition edge_good (N : nat) (e : Edge) : Prop :=
  edge_ok N e /\ len e = frag_len (path e).

Definition all_edges {D : Type} (P : Edge -> Prop) (g : Graph D) : Prop :=
  forall n, Forall P (node_edges g n).

(** The graph as [Graph()] creates it and [insert] keeps it: one bin map
    and one fuzzy-start list per node, the root at least, [self.nodes]
    counting them, and every edge good. *)
Definition graph_inv {D : Type} (g : Graph D) : Prop :=
  length (fuzzy_starts g) = length (adjacency g) /\
  (0 < length (adjacency g))%nat /\
  nodes g = length (adjacency g) /\
  all_edges (edge_good (length (adjacency g))) g.

(** [g'] holds the payloads of [g], with [d] appended to the payload
    list of one node. *)
Definition payload_added {D : Type} (d : option D) (g g' : Graph D) : Prop :=
  exists n, forall m, node_data g' m = node_data g m ++ (if Nat.eqb m n then [d] else []).


Definition edge_okb (N : nat) (e : Edge) : bool := Nat.ltb (to e) N && Z.leb 0 (len e).

Definition wf_check {D : Type} (g : Graph D) : bool :=
  let N := length (adjacency g) in
  Nat.eqb (length (fuzzy_starts g)) N && Nat.ltb 0 N && Nat.leb (nodes g) N &&
  forallb (fun n => forallb (edge_okb N) (node_edges g n)) (seq 0 N).

(** ** Concrete inputs used by the examples and counterexamples *)

(** A literal fragment (no wildcard). *)
Definition frag (s : list Z) : MatchFragment := mkFragment s (map (fun _ => false) s).

(** The graph after a sequence of inserts into [Graph(bin_count)]. *)
Definition insert_all {D : Type} (l : list (MatchFragment * option D)) : M D unit :=
  fold_left (fun m '(p, d) => m;;; (_ <- insert p d;; ret tt)) l (ret tt).

Definition built_graph {D : Type} (bc : Z) (l : list (MatchFragment * option D)) : Graph D :=
  match insert_all l (new_graph bc) with Ok (_, g) => g | Err _ => new_graph bc end.

(** Signatures b"ABCDEF" (payload 3), b"AB" (payload 1), b"ABCD"
    (payload 2), inserted in this order. *)
Definition sigs_AB_ABCD : list (MatchFragment * option nat) :=
  [(frag [65; 66; 67; 68; 69; 70], Some 3%nat);
   (frag [65; 66], Some 1%nat);
   (frag [65; 66; 67; 68], Some 2%nat)].

(** A decision procedure for [graph_inv] on a concrete graph. *)
Definition edge_goodb (N : nat) (e : Edge) : bool :=
  edge_okb N e && Z.eqb (len e) (frag_len (path e)).

Definition inv_check {D : Type} (g : Graph D) : bool :=
  let N := length (adjacency g) in
  Nat.eqb (length (fuzzy_starts g)) N && Nat.ltb 0 N && Nat.eqb (nodes g) N &&
  forallb (fun n => forallb (edge_goodb N) (node_edges g n)) (seq 0 N).

(** The graph a successful run of [m] leaves ([g] itself on an
    exception). *)
Definition run_graph {D A : Type} (m : M D A) (g : Graph D) : Graph D :=
  match m g with Ok (_, g') => g' | Err _ => g end.

(** The graph as [match] sees it, after its call to [finalize]. *)
Definition finalized_graph {D : Type} (g : Graph D) : Graph D :=
  match finalize g with Ok (_, g') => g' | Err _ => g end.

(** [Graph(256)] with the three signatures above, finalized: the root's
    edge b"AB" leads to node 2 (payload 1), whose edge b"CD" leads to
    node 3 (payload 2), whose edge b"EF" leads to node 1 (payload 3). *)
Definition example_graph : Graph nat :=
  finalized_graph (built_graph 256 sigs_AB_ABCD).

Definition target_ABCDEF : list Z := [65; 66; 67; 68; 69; 70].

(** * Properties *)

(** ** Monad reasoning *)

Section MonadFacts.
Context {D : Type}.

Lemma bind_Ok_inv {A B} (m : M D A) (k : A -> M D B) g r :
  bind m k g = Ok r -> exists a g', m g = Ok (a, g') /\ k a g' = Ok r.
Proof.
  unfold bind. destruct (m g) as [[a g']|e]; intros H; [eauto | discriminate].
Qed.

Lemma bind_Ok {A B} (m : M D A) (k : A -> M D B) g a g' :
  m g = Ok (a, g') -> bind m k g = k a g'.
Proof. unfold bind. intros ->. reflexivity. Qed.

End MonadFacts.

(** [bind_inv H Hm] splits [H : bind m k g = Ok r] into [Hm] about [m]
    and [H] about the continuation. *)
Ltac bind_inv H Hm :=
  apply bind_Ok_inv in H; destruct H as [?a [?g [Hm H]]].

(** ** Finalization is guarded by the [finalized] flag *)

Section FinalizeFacts.
Context {D : Type}.

Lemma finalize_sets_flag (g g' : Graph D) u :
  finalize g = Ok (u, g') -> finalized g' = true.
Proof.
  unfold finalize. intros H. bind_inv H Hm. cbn in Hm. injection Hm as <- <-.
  destruct (finalized g) eqn:Ef.
  - cbn in H. injection H as _ <-. exact Ef.
  - repeat (bind_inv H Hm; clear Hm).
    cbn in H. injection H as _ <-. reflexivity.
Qed.

End FinalizeFacts.

(** ** C8: finalize twice is finalize once *)

(** C8: calling [finalize()] twice in succession, with no insertion in
    between, gives the same graph (edge order in every exact bin and
    fuzzy-start list, [longest_path], weights) as calling it once: the
    second call returns at the [finalized] guard. *)
Theorem finalize_idempotent {D : Type} (g : Graph D) :
  (finalize ;;; finalize) g = finalize g.
Proof.
  unfold bind at 1. destruct (finalize g) as [[u g']|e] eqn:E; [|reflexivity].
  apply finalize_sets_flag in E. unfold finalize, bind, gets. cbn.
  rewrite E. destruct u. reflexivity.
Qed.

(** ** C10: inserting an empty fragment *)

(** C10: inserting a fragment of length 0 returns [None] (not a bool),
    adds no node, edge or payload, and only clears the [finalized]
    flag. *)
Theorem insert_empty_fragment {D : Type} (g : Graph D) (p : MatchFragment)
    (d : option D) :
  template p = [] ->
  insert p d g = Ok (None, with_finalized g false).
Proof.
  intros Ht. unfold insert, bind, modify. cbn.
  unfold frag_len. rewrite Ht. reflexivity.
Qed.

Lemma insert_empty_fragment_witness :
  template (frag []) = [] /\
  insert (D:=nat) (frag []) (Some 7%nat) (new_graph 256)
  = Ok (None, with_finalized (new_graph 256) false).
Proof.
  split; [reflexivity|]. apply insert_empty_fragment. reflexivity.
Defined.

(** ** C7: duplicate insertion *)

Lemma lcp_aux_self (t : list Z) (z : list bool) :
  length z = length t -> lcp_aux t z t z = length t.
Proof.
  revert z; induction t as [|b t IH]; intros [|f z] Hl; cbn in *; try lia.
  rewrite Bool.eqb_reflx, Z.eqb_refl, orb_true_r. cbn. rewrite IH; lia.
Qed.

Lemma longest_common_prefix_self (p : MatchFragment) :
  length (fuzziness p) = length (template p) ->
  longest_common_prefix p p = frag_len p.
Proof. intros H. unfold longest_common_prefix, frag_len. rewrite lcp_aux_self; auto. Qed.

(** C7: inserting the same non-empty fragment twice into a fresh graph,
    with payloads [P1] then [P2], gives [True] then [False], raises
    nothing, and leaves a single terminus (node 1) whose payload list is
    exactly [[P1; P2]]. *)
Theorem insert_duplicate {D : Type} (bc : Z) (p : MatchFragment) (P1 P2 : D) :
  bc <> 0 ->
  template p <> [] ->
  length (fuzziness p) = length (template p) ->
  exists g1 g2,
    insert p (Some P1) (new_graph bc) = Ok (Some true, g1) /\
    insert p (Some P2) g1 = Ok (Some false, g2) /\
    data g2 = [(1%nat, [Some P1; Some P2])] /\
    nodes g2 = 2%nat.
Proof.
  intros Hbc Hne Hl.
  destruct p as [t z]; cbn in *.
  destruct t as [|b t]; [congruence|]. destruct z as [|f z]; cbn in Hl; [lia|].
  assert (Hb : (bc =? 0) = false) by (apply Z.eqb_neq; exact Hbc).
  pose proof (lcp_aux_self (b :: t) (f :: z) ltac:(cbn; lia)) as Hs.
  destruct f; (eexists; eexists; split; [|split; [|split]]).
  - unfold insert. cbv -[Z.eqb Z.modulo lcp_aux]. rewrite ?Hb.
    cbv -[Z.eqb Z.modulo lcp_aux]. rewrite ?Z.eqb_refl. reflexivity.
  - unfold insert. cbv -[Z.eqb Z.modulo lcp_aux]. rewrite ?Hb.
    cbv -[Z.eqb Z.modulo lcp_aux]. rewrite ?Z.eqb_refl, ?Hs.
    cbv -[Z.eqb Z.modulo lcp_aux]. rewrite ?Z.eqb_refl.
    cbv -[Z.eqb Z.modulo lcp_aux]. rewrite ?Z.eqb_refl.
    reflexivity.
  - reflexivity.
  - reflexivity.
  - unfold insert. cbv -[Z.eqb Z.modulo lcp_aux]. rewrite ?Hb.
    cbv -[Z.eqb Z.modulo lcp_aux]. rewrite ?Z.eqb_refl. reflexivity.
  - unfold insert. cbv -[Z.eqb Z.modulo lcp_aux]. rewrite ?Hb.
    cbv -[Z.eqb Z.modulo lcp_aux]. rewrite ?Z.eqb_refl, ?Hs.
    cbv -[Z.eqb Z.modulo lcp_aux]. rewrite ?Z.eqb_refl.
    cbv -[Z.eqb Z.modulo lcp_aux]. rewrite ?Z.eqb_refl.
    reflexivity.
  - reflexivity.
  - reflexivity.
Qed.

Lemma insert_duplicate_witness :
  (256 <> 0 /\ template (frag [65; 66]) <> [] /\
   length (fuzziness (frag [65; 66])) = length (template (frag [65; 66]))) /\
  exists g1 g2,
    insert (frag [65; 66]) (Some 1%nat) (new_graph 256) = Ok (Some true, g1) /\
    insert (frag [65; 66]) (Some 2%nat) g1 = Ok (Some false, g2) /\
    data g2 = [(1%nat, [Some 1%nat; Some 2%nat])] /\
    nodes g2 = 2%nat.
Proof.
  split; [split; [lia | split; [discriminate | reflexivity]]|].
  apply insert_duplicate; [lia | discriminate | reflexivity].
Defined.

(** ** C1: edge splitting *)

Lemma nth_error_app_last {A : Type} (l : list A) (x : A) n :
  length l = n -> nth_error (l ++ [x]) n = Some x.
Proof. intros <-. rewrite nth_error_app2 by lia. rewrite Nat.sub_diag. reflexivity. Qed.

Lemma nth_app_last {A : Type} (l : list A) (x d : A) n :
  length l = n -> nth n (l ++ [x]) d = x.
Proof. intros <-. rewrite app_nth2 by lia. rewrite Nat.sub_diag. reflexivity. Qed.

Lemma upd_nth_app_last {A : Type} (l : list A) (x : A) f n :
  length l = n -> upd_nth n f (l ++ [x]) = l ++ [f x].
Proof.
  intros <-. induction l as [|y l IH]; cbn; [reflexivity|]. rewrite IH. reflexivity.
Qed.

(** C1: splitting [edge] at [at_] creates a new tail edge, the only
    edge of the new node, that leads to the old destination with the
    suffix and carries the original, unreduced [match_size]; the prefix
    stays on [edge], whose length becomes [at_] and whose destination
    becomes the new node.  The code also lowers the prefix's
    [match_size] by [at_] (graph.py:116); that reduction is the defect
    of C6, recorded here only because it is what the code does. *)
Theorem split_edge_match_sizes {D : Type} (g g' : Graph D) (e e' : Edge) (at_ : Z) :
  length (adjacency g) = nodes g ->
  length (fuzzy_starts g) = nodes g ->
  split_edge e at_ g = Ok (e', g') ->
  len e' = at_ /\ to e' = nodes g /\ match_size e' = match_size e - at_ /\
  path e' = fst (split_at (path e) at_) /\
  exists tail,
    node_edges g' (nodes g) = [tail] /\
    to tail = to e /\ match_size tail = match_size e /\
    path tail = snd (split_at (path e) at_).
Proof.
  intros Ha Hf H. unfold split_edge in H.
  destruct (split_at (path e) at_) as [pre suf] eqn:Es. cbn [fst snd].
  bind_inv H Hm. cbn in Hm. injection Hm as _ <-.
  bind_inv H Hm. cbn in Hm. injection Hm as <- <-.
  bind_inv H Hadd. cbn in H. injection H as <- <-. cbn.
  rewrite ?Nat.sub_0_r in *.
  split; [reflexivity|]. split; [reflexivity|]. split; [reflexivity|].
  split; [reflexivity|].
  unfold add_edge in Hadd. bind_inv Hadd Hm. unfold lift in Hm.
  destruct (fuzziness0 suf) as [fz|ex] eqn:Efz; [|discriminate].
  injection Hm as <- <-.
  destruct fz.
  - bind_inv Hadd Hm. cbn in Hm. injection Hm as <- <-.
    bind_inv Hadd Hm. unfold lift, py_nth in Hm. cbn in Hm.
    rewrite ?Nat.sub_0_r in Hm. rewrite (nth_error_app_last _ _ _ Hf) in Hm. injection Hm as <- <-.
    cbn in Hadd. injection Hadd as _ <-. rewrite ?Nat.sub_0_r.
    exists (new_edge (to e) suf (Some (match_size e))).
    unfold node_edges. cbn. rewrite (nth_app_last _ _ _ _ Ha).
    rewrite (upd_nth_app_last _ _ _ _ Hf), (nth_app_last _ _ _ _ Hf). cbn.
    repeat split; reflexivity.
  - bind_inv Hadd Hm. unfold lift in Hm.
    destruct (template0 suf) as [b|ex]; [|discriminate]. injection Hm as <- <-.
    bind_inv Hadd Hm. unfold to_bin, bind, gets in Hm. cbn in Hm.
    destruct (bin_count g =? 0); [discriminate|]. cbn in Hm. injection Hm as <- <-.
    bind_inv Hadd Hm. cbn in Hm. injection Hm as <- <-.
    bind_inv Hadd Hm. unfold lift, py_nth in Hm. cbn in Hm. rewrite ?Nat.sub_0_r in Hm.
    rewrite (nth_error_app_last _ _ _ Ha) in Hm. injection Hm as <- <-.
    cbn in Hadd. injection Hadd as _ <-. rewrite ?Nat.sub_0_r.
    exists (new_edge (to e) suf (Some (match_size e))).
    unfold node_edges. cbn.
    rewrite (upd_nth_app_last _ _ _ _ Ha), (nth_app_last _ _ _ _ Ha).
    rewrite (nth_app_last _ _ _ _ Hf). cbn. rewrite Z.eqb_refl. cbn.
    repeat split; reflexivity.
Qed.

Lemma split_edge_match_sizes_witness :
  let g := built_graph 256 [(frag [65; 66; 67; 68; 69; 70], Some 3%nat)] in
  let e := new_edge 1 (frag [65; 66; 67; 68; 69; 70]) None in
  match split_edge e 2 g with
  | Ok (e', g') =>
      len e' = 2 /\ to e' = nodes g /\ match_size e' = match_size e - 2 /\
      path e' = fst (split_at (path e) 2) /\
      exists tail,
        node_edges g' (nodes g) = [tail] /\
        to tail = to e /\ match_size tail = match_size e /\
        path tail = snd (split_at (path e) 2)
  | Err _ => False
  end.
Proof.
  intros g e. destruct (split_edge e 2 g) as [[e' g']|ex] eqn:E.
  - apply (split_edge_match_sizes g g' e e' 2); [reflexivity | reflexivity | exact E].
  - vm_compute in E. discriminate.
Defined.

(** C1, as stated, fails: after inserting b"ABCDEF" then b"AB", the
    prefix edge b"AB" (the root's only edge) carries match_size 4 = 6 - 2,
    not the unreduced 6, and the tail edge b"CDEF" (the only edge of the
    new node 2) carries the unreduced 6, not 6 - 2. *)
Lemma split_edge_claim_counterexample :
  let g := built_graph 256 (firstn 2 sigs_AB_ABCD) in
  map len (node_edges g 0) = [2] /\
  map match_size (node_edges g 0) = [4] /\
  map match_size (node_edges g 2) = [6] /\
  ~ (map match_size (node_edges g 0) = [6] /\
     map match_size (node_edges g 2) = [6 - 2]).
Proof.
  vm_compute. split; [reflexivity|]. split; [reflexivity|]. split; [reflexivity|].
  intros [H _]. discriminate.
Qed.

(** ** C3: what the scanner pushes after a matching edge *)

Lemma dd_get_fst {K V : Type} (keq : K -> K -> bool) (k : K) (m : list (K * list V)) :
  fst (dd_get keq k m) = dd_value keq k m.
Proof. unfold dd_get, dd_value. destruct (dd_find keq k m); reflexivity. Qed.

Lemma py_nth_in {A : Type} (l : list A) (n : nat) d :
  (n < length l)%nat -> py_nth l n = Ok (nth n l d).
Proof. intros H. unfold py_nth. rewrite (nth_error_nth' l d H). reflexivity. Qed.

(** C3: after the edge on top of the stack matches (the next byte [b]
    being in range), the scanner
    - breaks out of the inner loop with the destination's payloads,
      the edge's match_size and the end offset, when the destination
      carries payloads and has neither exact-bin nor fuzzy-start edges;
    - otherwise, when the destination carries payloads and the edge's
      match_size is not greater than the recorded candidate's, pushes
      nothing and keeps the candidate;
    - otherwise pushes the destination's exact-bin edges for [b] and its
      fuzzy-start edges, recording the destination as the new candidate
      when it carries payloads.  A destination without payloads is thus
      always expanded. *)
Theorem inner_step_expansion {D : Type} (g : Graph D) (target : list Z) (offset p : Z)
    (edge : Edge) (rest : list (Z * Edge)) (intermediate : option MatchRes) (b : Z) :
  edge_matches edge (py_slice target p (p + len edge)) = true ->
  (to edge < length (adjacency g))%nat ->
  (to edge < length (fuzzy_starts g))%nat ->
  bin_count g <> 0 ->
  py_index target (p + len edge) = Ok b ->
  exists g',
    inner_step target offset p edge rest intermediate g =
    Ok (if is_nonempty (node_data g (to edge)) &&
           negb (is_nonempty (nth (to edge) (adjacency g) [])
                 || is_nonempty (nth (to edge) (fuzzy_starts g) []))
        then Break (node_data g (to edge), match_size edge, p + len edge + offset)
                   (p + len edge)
        else if is_nonempty (node_data g (to edge)) &&
           match intermediate with
           | Some (_, old_size, _) => match_size edge <=? old_size
           | None => false
           end
        then Continue rest intermediate
        else Continue (rev (map (fun t => (p + len edge, t))
                                (bin_edges g (to edge) (b mod bin_count g)
                                 ++ nth (to edge) (fuzzy_starts g) [])) ++ rest)
                      (if is_nonempty (node_data g (to edge))
                       then Some (node_data g (to edge), match_size edge, p + len edge)
                       else intermediate),
        g').
Proof.
  intros Hm Ha Hf Hbc Hb.
  assert (Ea : nth_error (adjacency g) (to edge) = Some (nth (to edge) (adjacency g) []))
    by (apply nth_error_nth'; exact Ha).
  assert (Ef' : nth_error (fuzzy_starts g) (to edge) = Some (nth (to edge) (fuzzy_starts g) []))
    by (apply nth_error_nth'; exact Hf).
  assert (Ebc : (bin_count g =? 0) = false) by (apply Z.eqb_neq; exact Hbc).
  unfold inner_step. rewrite Hm. unfold bind at 1, gets at 1. cbv beta iota.
  destruct (dd_get Nat.eqb (to edge) (data g)) as [dat dm'] eqn:Ed.
  assert (Hdat : dat = node_data g (to edge))
    by (unfold node_data; rewrite <- dd_get_fst, Ed; reflexivity).
  subst dat.
  destruct (dd_get Z.eqb (b mod bin_count g) (nth (to edge) (adjacency g) []))
    as [es a'] eqn:Eb.
  assert (Hes : es = bin_edges g (to edge) (b mod bin_count g))
    by (unfold bin_edges; rewrite <- dd_get_fst, Eb; reflexivity).
  subst es.
  destruct (is_nonempty (node_data g (to edge))) eqn:Edat.
  - destruct (is_nonempty (nth (to edge) (adjacency g) [])) eqn:Ena;
      [| destruct (is_nonempty (nth (to edge) (fuzzy_starts g) [])) eqn:Enf];
    (destruct intermediate as [[[d0 old] e0]|];
     [destruct (match_size edge <=? old) eqn:Eold|]);
    unfold bind, gets, lift, ret, modify, py_nth, to_bin, throw, with_data, with_adjacency;
    repeat progress (cbn; rewrite ?Ea, ?Ef', ?Ena, ?Enf, ?Eold, ?Hb, ?Ebc, ?Eb);
    eexists; reflexivity.
  - unfold bind, gets, lift, ret, modify, py_nth, to_bin, throw, with_data, with_adjacency.
    repeat progress (cbn; rewrite ?Ea, ?Ef', ?Hb, ?Ebc, ?Eb);
    eexists; reflexivity.
Qed.

Lemma inner_step_expansion_witness :
  (exists e, bin_edges example_graph 2 67 = [e] /\
   exists g',
     inner_step target_ABCDEF 0 2 e [] None example_graph =
     Ok (Continue (rev (map (fun t => (2 + len e, t))
                            (bin_edges example_graph (to e) (69 mod bin_count example_graph)
                             ++ nth (to e) (fuzzy_starts example_graph) [])))
                  (Some (node_data example_graph (to e), match_size e, 2 + len e)),
         g')) /\
  (exists e, bin_edges example_graph 3 69 = [e] /\
   exists g',
     inner_step [65; 66; 67; 68; 69; 70; 71] 0 4 e [] None example_graph =
     Ok (Break (node_data example_graph (to e), match_size e, 4 + len e + 0) (4 + len e),
         g')).
Proof.
  split.
  - eexists. split; [vm_compute; reflexivity|].
    match goal with |- exists g', inner_step _ _ _ ?e _ _ _ = _ =>
      destruct (inner_step_expansion example_graph target_ABCDEF 0 2 e [] None 69)
      as [g' Hg'];
      [vm_compute; reflexivity | vm_compute; lia | vm_compute; lia
      | vm_compute; discriminate | vm_compute; reflexivity |] end.
    exists g'. rewrite Hg'. vm_compute. reflexivity.
  - eexists. split; [vm_compute; reflexivity|].
    match goal with |- exists g', inner_step _ _ _ ?e _ _ _ = _ =>
      destruct (inner_step_expansion example_graph [65; 66; 67; 68; 69; 70; 71] 0 4 e [] None 71)
      as [g' Hg'];
      [vm_compute; reflexivity | vm_compute; lia | vm_compute; lia
      | vm_compute; discriminate | vm_compute; reflexivity |] end.
    exists g'. rewrite Hg'. vm_compute. reflexivity.
Defined.

(** C3, as stated, fails: scanning b"ABCDEF" on [example_graph], once
    b"AB" has matched (candidate of size 4 ending at 2), the edge b"CD"
    matches too, and the next byte 69 is in range and node 3 has an edge;
    yet the scanner pushes nothing, since node 3 carries a payload and the
    edge's match_size 4 is not greater than the candidate's. *)
Lemma inner_step_claim_counterexample :
  exists e, bin_edges example_graph 2 67 = [e] /\
    py_index target_ABCDEF (2 + len e) = Ok 69 /\
    node_edges example_graph (to e) <> [] /\
    inner_step target_ABCDEF 0 2 e [] (Some ([Some 1%nat], 4, 2)) example_graph =
    Ok (Continue [] (Some ([Some 1%nat], 4, 2)), example_graph).
Proof.
  eexists. split; [vm_compute; reflexivity|].
  split; [vm_compute; reflexivity|]. split; [vm_compute; discriminate|].
  vm_compute. reflexivity.
Qed.

(** ** C5: alignment of the scan cursor *)

Lemma match_loop_step {D : Type} fuel target offset align pos acc (g : Graph D) y pos' g' pos'' :
  pos < Z.of_nat (length target) ->
  match_body target offset pos g = Ok ((y, pos'), g') ->
  realign offset align pos' = Ok pos'' ->
  match_loop (S fuel) target offset align pos acc g =
  match_loop fuel target offset align pos'' (opt_list y ++ acc) g'.
Proof.
  intros Hlt Hb Hr. cbn [match_loop].
  rewrite (proj2 (Z.ltb_lt _ _) Hlt), Hb, Hr. reflexivity.
Qed.

Lemma realign_aligned offset align pos pos'' :
  0 < align -> realign offset align pos = Ok pos'' -> (pos'' + offset) mod align = 0.
Proof.
  intros Ha Hr. unfold realign in Hr.
  destruct (Z.eqb_spec align 0) as [E|_]; [lia|].
  injection Hr as <-.
  replace (pos + (- pos - offset) mod align + offset)
    with ((pos + offset) + (- pos - offset) mod align) by ring.
  rewrite Z.add_mod_idemp_r by lia.
  replace (pos + offset + (- pos - offset)) with 0 by ring.
  apply Z.mod_0_l; lia.
Qed.

Lemma outer_step_aligned {D : Type} target offset align (s : Z * Graph D) pos g :
  0 < align -> outer_step target offset align s (pos, g) -> (pos + offset) mod align = 0.
Proof.
  intros Ha Hs. inversion Hs; subst. eapply realign_aligned; eauto.
Qed.

(** C5 (corrected): with [align > 0] and a base offset that is a multiple
    of [align] (e.g. [align = 4], [offset = 0]), every position the
    scanner's cursor reaches from 0 by whole outer-loop passes, i.e. every
    position at which a match attempt starts, is a multiple of [align]. *)
Theorem match_attempts_aligned {D : Type} (target : list Z) (offset align : Z)
    (g g' : Graph D) (pos : Z) :
  0 < align -> offset mod align = 0 ->
  clos_refl_trans _ (outer_step target offset align) (0, g) (pos, g') ->
  pos mod align = 0.
Proof.
  intros Ha Ho Hr. apply clos_rt_rtn1 in Hr. inversion Hr as [E|s1 s2 Hs _ E].
  - subst. apply Z.mod_0_l; lia.
  - subst s2. apply outer_step_aligned in Hs; [|exact Ha].
    rewrite <- Z.add_mod_idemp_r in Hs by lia. rewrite Ho, Z.add_0_r in Hs. exact Hs.
Qed.

Lemma match_attempts_aligned_witness :
  exists g',
    clos_refl_trans _ (outer_step [65; 66; 67; 0; 65; 66; 67] 0 4)
      (0, finalized_graph (built_graph 256 [(frag [65; 66; 67], Some 0%nat)])) (4, g') /\
    4 mod 4 = 0.
Proof.
  eexists.
  match goal with |- ?R (0, ?G0) (4, ?G) /\ _ => assert (H : R (0, G0) (4, G)) end.
  { apply rt_step. econstructor; vm_compute; reflexivity. }
  split; [exact H|].
  eapply (match_attempts_aligned (D:=nat) [65; 66; 67; 0; 65; 66; 67] 0 4);
    [lia | reflexivity | exact H].
Defined.

(** C5, as stated, fails for the reported end offsets: with the single
    signature b"ABC", [align = 4] and [offset = 0], scanning
    b"ABC\x00ABC" reports the end offsets 3 and 7, not multiples of 4. *)
Lemma match_aligned_claim_counterexample :
  exists ys g',
    match_ (built_graph 256 [(frag [65; 66; 67], Some 0%nat)]) [65; 66; 67; 0; 65; 66; 67] 0 4
    = (ys, None, g') /\
    map (fun '(_, _, e) => e) ys = [3; 7] /\ 3 mod 4 <> 0.
Proof.
  do 2 eexists. split; [vm_compute; reflexivity|]. split; [reflexivity | discriminate].
Qed.

(** ** C4: what a scan changes in a finalized graph *)

Section ScanFrame.
Context {D : Type}.

Lemma dd_find_app_none {K V : Type} (keq : K -> K -> bool) k k' (m : list (K * list V)) :
  dd_find keq k m = None ->
  dd_value keq k' (m ++ [(k, [])]) = dd_value keq k' m.
Proof.
  intros Hk. unfold dd_value. induction m as [|[k0 v0] m IH]; cbn in *.
  - destruct (keq k' k); reflexivity.
  - destruct (keq k' k0); [reflexivity|].
    destruct (keq k k0); [discriminate|]. exact (IH Hk).
Qed.

Lemma dd_get_value {K V : Type} (keq : K -> K -> bool) k k' (m : list (K * list V)) v m' :
  dd_get keq k m = (v, m') -> dd_value keq k' m' = dd_value keq k' m.
Proof.
  unfold dd_get. destruct (dd_find keq k m) eqn:E; intros H; injection H as <- <-;
    [reflexivity | apply dd_find_app_none; exact E].
Qed.

Lemma dd_get_flat {K V : Type} (keq : K -> K -> bool) k (m : list (K * list V)) v m' :
  dd_get keq k m = (v, m') -> flat_map snd m' = flat_map snd m.
Proof.
  unfold dd_get. destruct (dd_find keq k m); intros H; injection H as <- <-;
    [reflexivity|].
  rewrite flat_map_app. cbn. rewrite !app_nil_r. reflexivity.
Qed.

Lemma upd_nth_length {A : Type} n (f : A -> A) l : length (upd_nth n f l) = length l.
Proof.
  revert n; induction l as [|x l IH]; intros [|n]; cbn; auto.
Qed.

Lemma nth_upd_nth_same {A : Type} n (f : A -> A) l x d :
  nth_error l n = Some x -> nth n (upd_nth n f l) d = f x.
Proof.
  revert n; induction l as [|y l IH]; intros [|n] H; cbn in *; try discriminate.
  - injection H as ->. reflexivity.
  - apply IH, H.
Qed.

Lemma nth_upd_nth_other {A : Type} n m (f : A -> A) l d :
  m <> n -> nth m (upd_nth n f l) d = nth m l d.
Proof.
  revert n m; induction l as [|y l IH]; intros [|n] [|m] H; cbn;
    try reflexivity; try lia; apply IH; lia.
Qed.

Lemma same_refl (g : Graph D) : same_structure g g.
Proof. repeat split; reflexivity. Qed.

Lemma same_trans (g1 g2 g3 : Graph D) :
  same_structure g1 g2 -> same_structure g2 g3 -> same_structure g1 g3.
Proof.
  intros (A1 & B1 & C1 & D1 & E1 & F1 & G1 & H1 & I1)
         (A2 & B2 & C2 & D2 & E2 & F2 & G2 & H2 & I2).
  repeat split; intros; congruence.
Qed.

(** [node_data[n]] on the defaultdict: the payload map gains at most an
    empty entry. *)
Lemma same_data_get (g : Graph D) k v m' :
  dd_get Nat.eqb k (data g) = (v, m') -> same_structure g (with_data g m').
Proof.
  intros H. repeat split; try reflexivity.
  intros n. unfold node_data. cbn. symmetry. eapply dd_get_value; eauto.
Qed.

(** [bins[n][k]] on the defaultdict of node [n]: that bin map gains at
    most an empty bin, at its end. *)
Lemma same_adj_get (g : Graph D) n k a v a' :
  nth_error (adjacency g) n = Some a -> dd_get Z.eqb k a = (v, a') ->
  same_structure g (with_adjacency g (upd_nth n (fun _ => a') (adjacency g))).
Proof.
  intros Ha Hd. repeat split; cbn; try reflexivity.
  - symmetry. apply upd_nth_length.
  - intros n' k'. unfold bin_edges. cbn.
    destruct (Nat.eq_dec n' n) as [->|Hne].
    + erewrite nth_upd_nth_same by exact Ha. erewrite nth_error_nth by exact Ha.
      symmetry. eapply dd_get_value; eauto.
    + rewrite nth_upd_nth_other by exact Hne. reflexivity.
  - intros n'. unfold node_edges. cbn.
    destruct (Nat.eq_dec n' n) as [->|Hne].
    + erewrite nth_upd_nth_same by exact Ha. erewrite nth_error_nth by exact Ha.
      rewrite (dd_get_flat _ _ _ _ _ Hd). reflexivity.
    + rewrite nth_upd_nth_other by exact Hne. reflexivity.
Qed.

Lemma py_nth_Ok {A : Type} (l : list A) n x : py_nth l n = Ok x -> nth_error l n = Some x.
Proof. unfold py_nth. destruct (nth_error l n); intros H; [injection H as ->; reflexivity | discriminate]. Qed.

(** [run] takes apart a hypothesis [m g = Ok r] along the monad's
    operations, branching at each test. *)
Ltac run :=
  repeat match goal with
  | H : bind _ _ _ = Ok _ |- _ => let Hm := fresh "Hm" in bind_inv H Hm
  | H : ret _ _ = Ok _ |- _ => unfold ret in H; injection H; clear H; intros; subst
  | H : gets _ _ = Ok _ |- _ => unfold gets in H; injection H; clear H; intros; subst
  | H : modify _ _ = Ok _ |- _ => unfold modify in H; injection H; clear H; intros; subst
  | H : throw _ _ = Ok _ |- _ => discriminate H
  | H : lift ?r _ = Ok _ |- _ =>
      unfold lift in H; destruct r eqn:?; [injection H; clear H; intros; subst | discriminate H]
  | H : to_bin _ _ = Ok _ |- _ => unfold to_bin in H
  | H : py_nth _ _ = Ok _ |- _ => apply py_nth_Ok in H
  | H : (match ?x with _ => _ end) _ = Ok _ |- _ => destruct x eqn:?
  | H : match ?x with _ => _ end = Ok _ |- _ => destruct x eqn:?
  end.

Ltac frame_finish :=
  first [ apply same_refl
        | eapply same_data_get; eassumption
        | eapply same_trans; [eapply same_data_get; eassumption | eapply same_adj_get; eassumption] ].

Lemma inner_step_frame target offset p edge rest intermediate (g g' : Graph D) st :
  inner_step target offset p edge rest intermediate g = Ok (st, g') -> same_structure g g'.
Proof.
  intros H. unfold inner_step in H. run; frame_finish.
Qed.

Lemma inner_loop_frame fuel target offset stack intermediate (g g' : Graph D) out :
  inner_loop fuel target offset stack intermediate g = Ok (out, g') -> same_structure g g'.
Proof.
  revert stack intermediate g. induction fuel as [|fuel IH]; intros stack inter g H;
    cbn [inner_loop] in H.
  - discriminate H.
  - destruct stack as [|[p edge] rest].
    + injection H; intros; subst. apply same_refl.
    + bind_inv H Hm. apply inner_step_frame in Hm. destruct a as [s i|y np].
      * eapply same_trans; [exact Hm | eapply IH; exact H].
      * injection H; intros; subst. exact Hm.
Qed.

Lemma match_body_frame target offset pos (g g' : Graph D) r :
  match_body target offset pos g = Ok (r, g') -> same_structure g g'.
Proof.
  intros H. unfold match_body in H. run;
    match goal with Hi : inner_loop _ _ _ _ _ _ = Ok _ |- _ => apply inner_loop_frame in Hi end;
    (eapply same_trans; [eapply same_adj_get; eassumption | assumption]).
Qed.

Lemma match_loop_frame fuel target offset align pos acc (g : Graph D) ys err g' :
  match_loop fuel target offset align pos acc g = (ys, err, g') -> same_structure g g'.
Proof.
  revert pos acc g. induction fuel as [|fuel IH]; intros pos acc g H; cbn [match_loop] in H.
  - injection H; intros; subst. apply same_refl.
  - destruct (pos <? Z.of_nat (length target)).
    + destruct (match_body target offset pos g) as [[[y pos'] g1]|e] eqn:Eb.
      * apply match_body_frame in Eb.
        destruct (realign offset align pos') as [pos''|e].
        -- eapply same_trans; [exact Eb | eapply IH; exact H].
        -- injection H; intros; subst. exact Eb.
      * injection H; intros; subst. apply same_refl.
    + injection H; intros; subst. apply same_refl.
Qed.

Lemma finalize_finalized (g : Graph D) : finalized g = true -> finalize g = Ok (tt, g).
Proof. intros H. unfold finalize, bind, gets. rewrite H. reflexivity. Qed.

End ScanFrame.

(** C4 (corrected): on a finalized graph, a scan leaves the structure as
    every reader of the trie sees it unchanged: each node's payloads,
    each exact bin of each node, each node's edges in iteration order,
    the fuzzy-start lists, the node count, [longest_path] and the
    [finalized] flag. What it may change is the representation of the
    defaultdicts: reading an absent bin or payload entry adds it, empty. *)
Theorem match_preserves_structure {D : Type} (g : Graph D) target offset align ys err g' :
  finalized g = true ->
  match_ g target offset align = (ys, err, g') ->
  same_structure g g'.
Proof.
  intros Hf H. unfold match_ in H. rewrite (finalize_finalized g Hf) in H.
  eapply match_loop_frame; exact H.
Qed.

Lemma match_preserves_structure_witness :
  exists ys err g',
    match_ example_graph [65; 66; 67; 68] 0 2 = (ys, err, g') /\
    same_structure example_graph g'.
Proof.
  do 3 eexists. split; [vm_compute; reflexivity|].
  eapply (match_preserves_structure example_graph [65; 66; 67; 68] 0 2);
    vm_compute; reflexivity.
Defined.

(** C4, as stated, fails: after inserting b"AB" into [Graph(256)] and
    finalizing, scanning b"C" adds the bin 67 (empty) to the root's bin
    map, so [adjacency] is not identical before and after. *)
Lemma match_structure_claim_counterexample :
  let g := finalized_graph (built_graph 256 [(frag [65; 66], Some 0%nat)]) in
  finalized g = true /\
  exists g', match_ g [67] 0 2 = ([], None, g') /\
    adjacency g' = [nth 0 (adjacency g) [] ++ [(67, [])]] ++ tl (adjacency g) /\
    adjacency g' <> adjacency g.
Proof.
  split; [vm_compute; reflexivity|].
  eexists. split; [vm_compute; reflexivity|]. split; [vm_compute; reflexivity | vm_compute; discriminate].
Qed.

(** ** C6: a signature shadowing its extension *)

(** C6 fails on the code: with b"ABCDEF" (payload 3), then b"AB"
    (payload 1), then b"ABCD" (payload 2) inserted, b"AB" and b"ABCD" are
    stored at nodes 2 and 3, yet scanning b"ABCD" yields only the match of
    the shorter b"AB" (reported with size 4, ending at 2), never the
    longer b"ABCD". Splitting b"ABCDEF" left the prefix edges with reduced
    match sizes (4 for b"AB" and for b"CD"), and the scanner drops the
    b"CD" extension because its size is not greater than the candidate's.
    Inserted without b"ABCDEF", the same two signatures give the longer
    match only. *)
Lemma match_extension_claim_counterexample :
  let g := built_graph 256 sigs_AB_ABCD in
  node_data g 2 = [Some 1%nat] /\ node_data g 3 = [Some 2%nat] /\
  (exists g', match_ g [65; 66; 67; 68] 0 2 = ([([Some 1%nat], 4, 2)], None, g')) /\
  (exists g', match_ (built_graph 256 (tl sigs_AB_ABCD)) [65; 66; 67; 68] 0 2
              = ([([Some 2%nat], 4, 4)], None, g')).
Proof.
  split; [vm_compute; reflexivity|]. split; [vm_compute; reflexivity|].
  split; eexists; vm_compute; reflexivity.
Qed.

(** ** C2: completion sentinels of the parallel driver *)

Section DriverFacts.
Context {D : Type}.

Lemma count_sentinels_app (q1 q2 : list (QItem (D:=D))) :
  count_sentinels (q1 ++ q2) = (count_sentinels q1 + count_sentinels q2)%nat.
Proof. unfold count_sentinels. rewrite filter_app, length_app. reflexivity. Qed.

Lemma count_sentinels_some (ys : list (MatchRes (D:=D))) : count_sentinels (map Some ys) = 0%nat.
Proof. induction ys; cbn; auto. Qed.

(** A worker that finishes without an exception has put one sentinel per
    job it took, the last item it put being a sentinel. *)
Lemma worker_sentinels (g : Graph D) binary jobs out :
  worker g binary jobs = (out, None) ->
  count_sentinels out = length jobs /\ (out = [] \/ exists o, out = o ++ [None]).
Proof.
  revert g out. induction jobs as [|[[start stop] al] jobs IH]; intros g out H; cbn in H.
  - injection H as <-. split; [reflexivity | left; reflexivity].
  - unfold yield_matches_to_queue in H.
    destruct (match_ g (py_slice binary start stop) start al) as [[ys err] g1].
    destruct err as [e|]; [discriminate|].
    destruct (worker g1 binary jobs) as [out' err'] eqn:Ew.
    injection H as <- ->. destruct (IH _ _ Ew) as [Hc He].
    split.
    + rewrite !count_sentinels_app, count_sentinels_some, Hc. reflexivity.
    + right. destruct He as [->|[o ->]].
      * exists (map Some ys). rewrite app_nil_r. reflexivity.
      * exists (map Some ys ++ [None] ++ o). rewrite <- !app_assoc. reflexivity.
Qed.

End DriverFacts.

Lemma merge_count {D : Type} (l1 l2 l : list (QItem (D:=D))) :
  merge l1 l2 l -> count_sentinels l = (count_sentinels l1 + count_sentinels l2)%nat.
Proof.
  induction 1 as [| x l1 l2 l _ IH | x l1 l2 l _ IH]; [reflexivity | |];
    destruct x; unfold count_sentinels in *; cbn; rewrite ?IH; lia.
Qed.

Lemma interleaving_count {D : Type} os (q : list (QItem (D:=D))) :
  interleaving os q -> count_sentinels q = list_sum (map count_sentinels os).
Proof.
  induction 1 as [|o os q q' _ IH Hm]; [reflexivity|].
  rewrite (merge_count _ _ _ Hm), IH. reflexivity.
Qed.

Lemma merge_nil_inv {A : Type} (l1 l2 : list A) : merge l1 l2 [] -> l1 = [] /\ l2 = [].
Proof. inversion 1; auto. Qed.

Lemma ends_cons_inv {A : Type} (x : A) l y :
  (x :: l = [] \/ exists o, x :: l = o ++ [y]) -> l = [] \/ exists o, l = o ++ [y].
Proof.
  intros [H|[o H]]; [discriminate|].
  destruct o as [|z o]; cbn in H; injection H as -> ->; [left | right; exists o]; reflexivity.
Qed.

Lemma merge_ends {A : Type} (y : A) l1 l2 l :
  merge l1 l2 l ->
  (l1 = [] \/ exists o, l1 = o ++ [y]) -> (l2 = [] \/ exists o, l2 = o ++ [y]) ->
  l = [] \/ exists o, l = o ++ [y].
Proof.
  induction 1 as [| x l1 l2 l Hm IH | x l1 l2 l Hm IH]; intros H1 H2; [left; reflexivity | |].
  - pose proof (ends_cons_inv _ _ _ H1) as H1'. right.
    destruct (IH H1' H2) as [->|[o ->]].
    + apply merge_nil_inv in Hm as [-> ->].
      destruct H1 as [H1|[o H1]]; [discriminate|].
      destruct o as [|z [|w o]]; cbn in H1; injection H1; intros; subst;
        [exists []; reflexivity | discriminate | discriminate].
    + exists (x :: o). reflexivity.
  - pose proof (ends_cons_inv _ _ _ H2) as H2'. right.
    destruct (IH H1 H2') as [->|[o ->]].
    + apply merge_nil_inv in Hm as [-> ->].
      destruct H2 as [H2|[o H2]]; [discriminate|].
      destruct o as [|z [|w o]]; cbn in H2; injection H2; intros; subst;
        [exists []; reflexivity | discriminate | discriminate].
    + exists (x :: o). reflexivity.
Qed.

Lemma interleaving_ends {A : Type} (y : A) os q :
  interleaving os q -> Forall (fun o => o = [] \/ exists p, o = p ++ [y]) os ->
  q = [] \/ exists p, q = p ++ [y].
Proof.
  induction 1 as [|o os q q' _ IH Hm]; intros Hf; [left; reflexivity|].
  inversion Hf; subst. eapply merge_ends; eauto.
Qed.

(** Once every item is read, the merge loop ends as soon as its count is
    reached: with the sentinels still to come numbering [work - done],
    the last item being a sentinel, it yields every match and leaves the
    queue empty. *)
Lemma merge_loop_drains {D : Type} (q : list (QItem (D:=D))) done work :
  (done <= work)%nat -> count_sentinels q = (work - done)%nat ->
  (q = [] \/ exists p, q = p ++ [None]) ->
  merge_loop done work q = (matches_of q, Some []).
Proof.
  revert done. induction q as [|x q IH]; intros done Hle Hc He.
  - unfold count_sentinels in Hc. cbn in Hc.
    cbn [merge_loop]. replace (done <? work)%nat with false by (symmetry; apply Nat.ltb_ge; lia).
    reflexivity.
  - assert (Hpos : (0 < count_sentinels (x :: q))%nat).
    { destruct He as [H|[p H]]; [discriminate|]. rewrite H.
      unfold count_sentinels. rewrite filter_app, length_app. cbn. lia. }
    pose proof (ends_cons_inv _ _ _ He) as He'.
    cbn [merge_loop]. replace (done <? work)%nat with true by (symmetry; apply Nat.ltb_lt; lia).
    destruct x as [m|].
    + unfold count_sentinels in Hc. cbn in Hc. fold (count_sentinels q) in Hc.
      rewrite (IH done Hle Hc He'). reflexivity.
    + unfold count_sentinels in Hc. cbn in Hc. fold (count_sentinels q) in Hc.
      apply IH; [lia | lia | exact He'].
Qed.

Lemma sum_indicator (a s W : nat) :
  list_sum (map (fun w => if Nat.eqb a w then 1 else 0)%nat (seq s W)) =
  (if (s <=? a) && (a <? s + W) then 1 else 0)%nat.
Proof.
  revert s. induction W as [|W IH]; intros s; cbn [seq map list_sum fold_right].
  - destruct (Nat.leb_spec s a); destruct (Nat.ltb_spec a (s + 0)); cbn [andb]; lia.
  - rewrite IH. destruct (Nat.eqb_spec a s);
      destruct (Nat.leb_spec (S s) a); destruct (Nat.ltb_spec a (S s + W));
      destruct (Nat.leb_spec s a); destruct (Nat.ltb_spec a (s + S W)); cbn [andb]; lia.
Qed.

Lemma list_sum_map_add {A : Type} (f h : A -> nat) l :
  list_sum (map (fun x => f x + h x)%nat l) = (list_sum (map f l) + list_sum (map h l))%nat.
Proof. unfold list_sum. induction l as [|x l IH]; cbn; [reflexivity | rewrite IH; lia]. Qed.

(** Every job is taken by one of the [W] workers: the jobs they take
    number [length jobs] in all. *)
Lemma jobs_of_total {J : Type} (W : nat) assign (jobs : list J) :
  length assign = length jobs -> Forall (fun a => (a < W)%nat) assign ->
  list_sum (map (fun w => length (jobs_of w assign jobs)) (seq 0 W)) = length jobs.
Proof.
  revert jobs. induction assign as [|a assign IH]; intros [|j jobs] Hl Hf; cbn in Hl;
    try discriminate.
  - clear. induction (seq 0 W); cbn; auto.
  - inversion Hf as [|? ? Ha Hf']; subst.
    transitivity (list_sum (map (fun w => (if Nat.eqb a w then 1 else 0)
                                          + length (jobs_of w assign jobs))%nat (seq 0 W))).
    { f_equal. apply map_ext. intros w. cbn. destruct (Nat.eqb a w); reflexivity. }
    rewrite list_sum_map_add, sum_indicator, IH by (auto; lia).
    destruct (Nat.leb_spec 0 a); destruct (Nat.ltb_spec a (0 + W)); cbn [andb length]; lia.
Qed.

Lemma merge_app {A : Type} (l1 l2 : list A) : merge l1 l2 (l1 ++ l2).
Proof.
  induction l1 as [|x l1 IH]; cbn.
  - induction l2; constructor; auto.
  - constructor. exact IH.
Qed.

Lemma interleaving_concat {A : Type} (os : list (list A)) : interleaving os (concat os).
Proof.
  induction os as [|o os IH]; cbn; [constructor|]. econstructor; [exact IH | apply merge_app].
Qed.

(** C2 (corrected): every worker puts one sentinel per slice it scanned,
    after that slice's matches, not one per worker. When every slice is
    taken by one of the launched workers and every scan finishes without
    an exception, the results queue, however the workers' puts
    interleave, holds exactly [len(slices)] sentinels, and the driver's
    loop [while done < work] (with [work = len(slices)]) ends right after
    the last of them, having yielded every match and left the queue
    empty. *)
Theorem parallel_driver_sentinels {D : Type} (g : Graph D) binary slices align workers assign q :
  length assign = length slices ->
  Forall (fun a => (a < workers)%nat) assign ->
  Forall (fun o => snd o = None) (worker_outputs g binary slices align workers assign) ->
  interleaving (map fst (worker_outputs g binary slices align workers assign)) q ->
  (forall w, (w < workers)%nat ->
     count_sentinels (fst (worker g binary (map (fun s => (s, align)) (jobs_of w assign slices))))
     = length (jobs_of w assign slices)) /\
  count_sentinels q = length slices /\
  merge_loop 0 (length slices) q = (matches_of q, Some []).
Proof.
  intros Hl Ha Hok Hi.
  assert (Hw : forall w, In w (seq 0 workers) ->
             let o := worker g binary (map (fun s => (s, align)) (jobs_of w assign slices)) in
             count_sentinels (fst o) = length (jobs_of w assign slices) /\
             (fst o = [] \/ exists p, fst o = p ++ [None])).
  { intros w Hin o. rewrite Forall_forall in Hok.
    assert (Hn : snd o = None) by (apply Hok; apply in_map_iff; exists w; auto).
    destruct o as [out err] eqn:Eo. cbn in Hn |- *. subst err.
    apply worker_sentinels in Eo. rewrite length_map in Eo. exact Eo. }
  assert (Hc : count_sentinels q = length slices).
  { rewrite (interleaving_count _ _ Hi). unfold worker_outputs. rewrite !map_map.
    rewrite <- (jobs_of_total workers assign slices Hl Ha). f_equal. apply map_ext_in.
    intros w Hin. apply (Hw w Hin). }
  split; [|split; [exact Hc|]].
  - intros w Hlt. apply (Hw w). apply in_seq. lia.
  - apply merge_loop_drains; [lia | rewrite Hc; lia |].
    apply (interleaving_ends _ _ _ Hi). apply Forall_forall. intros o Hin.
    unfold worker_outputs in Hin. rewrite map_map in Hin. apply in_map_iff in Hin.
    destruct Hin as [w [<- Hin]]. apply (Hw w Hin).
Qed.

Lemma parallel_driver_sentinels_witness :
  let outs := worker_outputs example_graph [65; 66; 67; 68] [(0, 2); (2, 4)] 2 2 [0; 1]%nat in
  (forall w, (w < 2)%nat ->
     count_sentinels (fst (worker example_graph [65; 66; 67; 68]
                             (map (fun s => (s, 2)) (jobs_of w [0; 1]%nat [(0, 2); (2, 4)]))))
     = length (jobs_of w [0; 1]%nat [(0, 2); (2, 4)])) /\
  count_sentinels (concat (map fst outs)) = 2%nat /\
  merge_loop 0 2 (concat (map fst outs)) = (matches_of (concat (map fst outs)), Some []).
Proof.
  apply (parallel_driver_sentinels example_graph [65; 66; 67; 68] [(0, 2); (2, 4)] 2 2 [0; 1]%nat);
    [reflexivity | repeat constructor | vm_compute; repeat constructor | apply interleaving_concat].
Defined.

(** C2, as stated, fails: with one worker and two slices, that worker
    puts two sentinels (one after each slice) and the driver reads both;
    it does not stop after one sentinel per worker. *)
Lemma parallel_driver_claim_counterexample :
  exists out,
    worker_outputs example_graph [65; 66; 67; 68] [(0, 2); (2, 4)] 2 1 [0; 0]%nat = [(out, None)] /\
    count_sentinels out = 2%nat /\
    merge_loop 0 1 out <> (matches_of out, Some []) /\
    merge_loop 0 2 out = (matches_of out, Some []).
Proof.
  eexists. split; [vm_compute; reflexivity|].
  split; [vm_compute; reflexivity|]. split; [vm_compute; discriminate | vm_compute; reflexivity].
Qed.

(** ** C9: the scan raises no IndexError *)

Section NoIndexError.
Context {D : Type}.

Lemma bind_Err_inv {A B} (m : M D A) (k : A -> M D B) g e :
  bind m k g = Err e -> m g = Err e \/ exists a g', m g = Ok (a, g') /\ k a g' = Err e.
Proof.
  unfold bind. destruct (m g) as [[a g']|e']; intros H; [right; eauto | left].
  injection H as ->. reflexivity.
Qed.

Lemma py_nth_Err {A : Type} (l : list A) n e : py_nth l n = Err e -> (length l <= n)%nat.
Proof.
  unfold py_nth. destruct (nth_error l n) eqn:E; intros H; [discriminate|].
  apply nth_error_None, E.
Qed.

Lemma py_index_Err {A : Type} (l : list A) i e :
  py_index l i = Err e -> 0 <= i -> Z.of_nat (length l) <= i.
Proof.
  unfold py_index. intros H Hi.
  replace (i <? 0) with false in H by (symmetry; apply Z.ltb_ge; lia).
  replace (i <? 0) with false in H by (symmetry; apply Z.ltb_ge; lia).
  apply py_nth_Err in H. lia.
Qed.

Lemma dd_find_in_flat {K V : Type} (keq : K -> K -> bool) k (m : list (K * list V)) v (P : V -> Prop) :
  dd_find keq k m = Some v -> Forall P (flat_map snd m) -> Forall P v.
Proof.
  induction m as [|[k' v'] m IH]; cbn; [discriminate|].
  intros H Hf. apply Forall_app in Hf as [H1 H2].
  destruct (keq k k'); [injection H as <-; exact H1 | exact (IH H H2)].
Qed.

Lemma dd_value_in_flat {K V : Type} (keq : K -> K -> bool) k (m : list (K * list V)) (P : V -> Prop) :
  Forall P (flat_map snd m) -> Forall P (dd_value keq k m).
Proof.
  unfold dd_value. destruct (dd_find keq k m) eqn:E; [apply dd_find_in_flat with (1 := E) | constructor].
Qed.

Lemma dd_get_in_flat {K V : Type} (keq : K -> K -> bool) k (m : list (K * list V)) v m' (P : V -> Prop) :
  dd_get keq k m = (v, m') -> Forall P (flat_map snd m) -> Forall P v.
Proof.
  intros H Hf. replace v with (fst (dd_get keq k m)) by (rewrite H; reflexivity).
  rewrite dd_get_fst. apply dd_value_in_flat, Hf.
Qed.

Lemma wf_same (g g' : Graph D) : same_structure g g' -> wf_graph g -> wf_graph g'.
Proof.
  intros (A & B & C & E & F & G & _) (H1 & H2 & H3 & H4).
  repeat split; try congruence.
  intros n. rewrite <- E, <- B. apply H4.
Qed.

(** [run_any] takes apart hypotheses [m g = Ok r] and [m g = Err e]
    along the monad's operations, branching at each test and at each
    [bind] that fails. *)
Ltac run_any :=
  repeat match goal with
  | H : bind _ _ _ = Ok _ |- _ => let Hm := fresh "Hm" in bind_inv H Hm
  | H : bind _ _ _ = Err _ |- _ =>
      let Hm := fresh "Hm" in
      apply bind_Err_inv in H; destruct H as [H | [?a [?g [Hm H]]]]
  | H : ret _ _ = Ok _ |- _ => unfold ret in H; injection H; clear H; intros; subst
  | H : ret _ _ = Err _ |- _ => discriminate H
  | H : gets _ _ = Ok _ |- _ => unfold gets in H; injection H; clear H; intros; subst
  | H : gets _ _ = Err _ |- _ => discriminate H
  | H : modify _ _ = Ok _ |- _ => unfold modify in H; injection H; clear H; intros; subst
  | H : modify _ _ = Err _ |- _ => discriminate H
  | H : throw _ _ = Ok _ |- _ => discriminate H
  | H : throw _ _ = Err _ |- _ => unfold throw in H; injection H; clear H; intros; subst
  | H : lift ?r _ = Ok _ |- _ =>
      unfold lift in H; destruct r eqn:?; [injection H; clear H; intros; subst | discriminate H]
  | H : lift ?r _ = Err _ |- _ =>
      unfold lift in H; destruct r eqn:?; [discriminate H | injection H; clear H; intros; subst]
  | H : to_bin _ _ = _ |- _ => unfold to_bin in H
  | H : update_edge_at _ _ _ _ = _ |- _ => unfold update_edge_at in H
  | H : py_nth _ _ = Ok _ |- _ => apply py_nth_Ok in H
  | H : py_nth _ _ = Err _ |- _ => apply py_nth_Err in H
  | H : inl _ = inr _ |- _ => discriminate H
  | H : inr _ = inl _ |- _ => discriminate H
  | H : inl _ = inl _ |- _ => injection H; clear H; intros; subst
  | H : inr _ = inr _ |- _ => injection H; clear H; intros; subst
  | H : false = true |- _ => discriminate H
  | H : true = false |- _ => discriminate H
  | H : (match ?x with _ => _ end) _ = _ |- _ => destruct x eqn:?
  | H : match ?x with _ => _ end = _ |- _ => destruct x eqn:?
  end.

Lemma nth_error_Some_nth {A : Type} (l : list A) n x d : nth_error l n = Some x -> x = nth n l d.
Proof. intros H. symmetry. apply nth_error_nth, H. Qed.

Lemma push_ok N q (l : list Edge) :
  0 <= q -> Forall (edge_ok N) l ->
  Forall (fun pe => 0 <= fst pe /\ edge_ok N (snd pe)) (map (fun t => (q, t)) l).
Proof.
  intros Hq Hl. apply Forall_map. eapply Forall_impl; [|exact Hl]. intros t Ht. split; assumption.
Qed.

Lemma inner_step_safe target offset p edge rest intermediate (g : Graph D) :
  wf_graph g -> edge_ok (length (adjacency g)) edge -> 0 <= p ->
  Forall (fun pe => 0 <= fst pe /\ edge_ok (length (adjacency g)) (snd pe)) rest ->
  (forall d ms q, intermediate = Some (d, ms, q) -> 0 <= q) ->
  (forall e, inner_step target offset p edge rest intermediate g = Err e -> e <> IndexError) /\
  (forall st g', inner_step target offset p edge rest intermediate g = Ok (st, g') ->
     match st with
     | Continue s i =>
         Forall (fun pe => 0 <= fst pe /\ edge_ok (length (adjacency g)) (snd pe)) s /\
         (forall d ms q, i = Some (d, ms, q) -> 0 <= q)
     | Break _ np => 0 <= np
     end).
Proof.
  intros Hwf He Hp Hr Hi. destruct Hwf as (Hlf & Hl0 & Hln & Hedges).
  destruct He as [Hto Hlen].
  split.
  - intros e H. unfold inner_step in H. run_any; cbn in *; try discriminate; lia.
  - intros st g' H. unfold inner_step in H. run_any; cbn in *; try lia.
    all: repeat match goal with |- _ /\ _ => split end.
    all: try exact Hr. all: try exact Hi.
    all: try (intros d ms q Hq; injection Hq; intros; subst; lia).
    all: apply Forall_app; split; try exact Hr.
    all: apply Forall_rev; apply push_ok; try lia.
    all: match goal with
         | Ha : nth_error (adjacency _) _ = Some ?a, Hd : dd_get _ _ ?a = _,
           Hf : nth_error (fuzzy_starts _) _ = Some ?f |- _ =>
             pose proof (Hedges (to edge)) as Hn; unfold node_edges in Hn;
             apply Forall_app in Hn as [Hna Hnf];
             rewrite <- (nth_error_Some_nth _ _ _ [] Ha) in Hna;
             rewrite <- (nth_error_Some_nth _ _ _ [] Hf) in Hnf;
             apply (dd_get_in_flat _ _ _ _ _ _ Hd) in Hna
         end.
    all: apply Forall_app; split; assumption.
Qed.

Lemma same_length_adj (g g' : Graph D) :
  same_structure g g' -> length (adjacency g) = length (adjacency g').
Proof. intros (_ & H & _). exact H. Qed.

Lemma inner_loop_safe fuel target offset stack intermediate (g : Graph D) :
  wf_graph g ->
  Forall (fun pe => 0 <= fst pe /\ edge_ok (length (adjacency g)) (snd pe)) stack ->
  (forall d ms q, intermediate = Some (d, ms, q) -> 0 <= q) ->
  (forall e, inner_loop fuel target offset stack intermediate g = Err e -> e <> IndexError) /\
  (forall out g', inner_loop fuel target offset stack intermediate g = Ok (out, g') ->
     match out with
     | Broke _ np => 0 <= np
     | Drained i => forall d ms q, i = Some (d, ms, q) -> 0 <= q
     end).
Proof.
  revert stack intermediate g.
  induction fuel as [|fuel IH]; intros stack inter g Hwf Hs Hi; cbn [inner_loop].
  - split; intros; [unfold throw in *; injection H; intros; subst; discriminate | discriminate].
  - destruct stack as [|[p edge] rest].
    + split; intros; unfold ret in *; [discriminate|]. injection H; intros; subst. exact Hi.
    + inversion Hs as [|? ? [Hp He] Hrest]; subst. cbn in Hp, He.
      destruct (inner_step_safe target offset p edge rest inter g Hwf He Hp Hrest Hi)
        as [Herr Hok].
      split.
      * intros e H. apply bind_Err_inv in H as [H|[st [g1 [Hm H]]]]; [exact (Herr e H)|].
        pose proof (Hok _ _ Hm) as Hst. pose proof (inner_step_frame _ _ _ _ _ _ _ _ _ Hm) as Hsame.
        destruct st as [s i|y np]; [|unfold ret in H; discriminate].
        destruct Hst as [Hs' Hi'].
        rewrite (same_length_adj _ _ Hsame) in Hs'.
        exact (proj1 (IH s i g1 (wf_same _ _ Hsame Hwf) Hs' Hi') e H).
      * intros out g' H. bind_inv H Hm.
        pose proof (Hok _ _ Hm) as Hst. pose proof (inner_step_frame _ _ _ _ _ _ _ _ _ Hm) as Hsame.
        destruct a as [s i|y np].
        -- destruct Hst as [Hs' Hi'].
           rewrite (same_length_adj _ _ Hsame) in Hs'.
           exact (proj2 (IH s i _ (wf_same _ _ Hsame Hwf) Hs' Hi') out g' H).
        -- unfold ret in H. injection H; intros; subst. exact Hst.
Qed.

Lemma match_body_safe target offset pos (g : Graph D) :
  wf_graph g -> 0 <= pos < Z.of_nat (length target) ->
  (forall e, match_body target offset pos g = Err e -> e <> IndexError) /\
  (forall y pos' g', match_body target offset pos g = Ok ((y, pos'), g') -> 0 <= pos').
Proof.
  intros Hwf Hpos. pose proof Hwf as (Hlf & Hl0 & Hln & Hedges).
  split.
  - intros e H. unfold match_body in H. run_any;
      try (match goal with Hx : py_index _ _ = Err _ |- _ => apply py_index_Err in Hx; lia end);
      try discriminate; try lia;
      try (cbn [fuzzy_starts with_adjacency] in *; lia).
    all: match goal with
         | Hn : nth_error (adjacency _) 0 = Some ?a0, Hd : dd_get _ _ ?a0 = _,
           Hf : nth_error (fuzzy_starts _) 0 = Some ?f0,
           Hl : inner_loop _ _ _ _ _ _ = Err _ |- _ =>
             cbn [fuzzy_starts with_adjacency] in Hf;
             pose proof (same_adj_get _ _ _ _ _ _ Hn Hd) as Hsame;
             refine (proj1 (inner_loop_safe _ _ _ _ _ _ (wf_same _ _ Hsame Hwf) _ _) _ Hl);
             [ rewrite <- (same_length_adj _ _ Hsame); apply Forall_rev; apply push_ok; [lia|];
               pose proof (Hedges 0%nat) as Hn0; unfold node_edges in Hn0;
               apply Forall_app in Hn0 as [Hna Hnf];
               rewrite <- (nth_error_Some_nth _ _ _ [] Hn) in Hna;
               rewrite <- (nth_error_Some_nth _ _ _ [] Hf) in Hnf;
               apply (dd_get_in_flat _ _ _ _ _ _ Hd) in Hna;
               apply Forall_app; split; assumption
             | intros; discriminate ]
         end.
  - intros y pos' g' H. unfold match_body in H. run_any; try lia.
    all: match goal with
         | Hn : nth_error (adjacency _) 0 = Some ?a0, Hd : dd_get _ _ ?a0 = _,
           Hf : nth_error (fuzzy_starts _) 0 = Some ?f0,
           Hl : inner_loop _ _ _ _ _ _ = Ok _ |- _ =>
             cbn [fuzzy_starts with_adjacency] in Hf;
             pose proof (same_adj_get _ _ _ _ _ _ Hn Hd) as Hsame;
             refine (_ (proj2 (inner_loop_safe _ _ _ _ _ _ (wf_same _ _ Hsame Hwf) _ _) _ _ Hl));
             [ cbn; intros Hout; first [exact Hout | eapply Hout; reflexivity]
             | rewrite <- (same_length_adj _ _ Hsame); apply Forall_rev; apply push_ok; [lia|];
               pose proof (Hedges 0%nat) as Hn0; unfold node_edges in Hn0;
               apply Forall_app in Hn0 as [Hna Hnf];
               rewrite <- (nth_error_Some_nth _ _ _ [] Hn) in Hna;
               rewrite <- (nth_error_Some_nth _ _ _ [] Hf) in Hnf;
               apply (dd_get_in_flat _ _ _ _ _ _ Hd) in Hna;
               apply Forall_app; split; assumption
             | intros; discriminate ]
         end.
Qed.

Lemma realign_nonneg offset align pos pos'' :
  0 <= align -> 0 <= pos -> realign offset align pos = Ok pos'' -> 0 <= pos''.
Proof.
  unfold realign. intros Ha Hp H. destruct (Z.eqb_spec align 0); [discriminate|].
  injection H as <-. pose proof (Z.mod_pos_bound (- pos - offset) align ltac:(lia)). lia.
Qed.

Lemma realign_Err offset align pos e : realign offset align pos = Err e -> e = ZeroDivisionError.
Proof. unfold realign. destruct (align =? 0); intros H; [injection H; auto | discriminate]. Qed.

Lemma match_loop_safe fuel target offset align pos acc (g : Graph D) ys err g' :
  wf_graph g -> 0 <= pos -> 0 <= align ->
  match_loop fuel target offset align pos acc g = (ys, err, g') -> err <> Some IndexError.
Proof.
  revert pos acc g. induction fuel as [|fuel IH]; intros pos acc g Hwf Hp Ha H;
    cbn [match_loop] in H.
  - injection H; intros; subst; discriminate.
  - destruct (Z.ltb_spec pos (Z.of_nat (length target))) as [Hlt|Hge].
    + destruct (match_body_safe target offset pos g Hwf (conj Hp Hlt)) as [Herr Hok].
      destruct (match_body target offset pos g) as [[[y pos'] g1]|e] eqn:Eb.
      * pose proof (Hok _ _ _ eq_refl) as Hp'.
        pose proof (match_body_frame _ _ _ _ _ _ Eb) as Hsame.
        destruct (realign offset align pos') as [pos''|e] eqn:Er.
        -- exact (IH pos'' _ g1 (wf_same _ _ Hsame Hwf) (realign_nonneg _ _ _ _ Ha Hp' Er) Ha H).
        -- injection H; intros; subst. apply realign_Err in Er. subst. discriminate.
      * injection H; intros; subst. intros He. injection He as He. exact (Herr _ eq_refl He).
    + injection H; intros; subst; discriminate.
Qed.

End NoIndexError.


Section FinalizeSafe.
Context {D : Type}.

Lemma Forall_upd_nth {A : Type} (P : A -> Prop) n f l :
  (forall x, P x -> P (f x)) -> Forall P l -> Forall P (upd_nth n f l).
Proof.
  intros Hf Hl. revert n. induction Hl as [|x l Hx Hl IH]; intros [|n]; cbn; constructor; auto.
Qed.

Lemma nth_upd_nth_cases {A : Type} n m (f : A -> A) l d :
  nth m (upd_nth n f l) d = nth m l d \/ nth m (upd_nth n f l) d = f (nth m l d).
Proof.
  revert n m. induction l as [|x l IH]; intros [|n] [|m]; cbn; auto.
Qed.

Lemma dd_replace_forall {K V : Type} (keq : K -> K -> bool) k v (m : list (K * list V)) (P : V -> Prop) :
  Forall P v -> Forall P (flat_map snd m) -> Forall P (flat_map snd (dd_replace keq k v m)).
Proof.
  intros Hv. induction m as [|[k' v'] m IH]; cbn; auto.
  intros Hm. apply Forall_app in Hm as [H1 H2].
  destruct (keq k k'); cbn; apply Forall_app; auto.
Qed.

Lemma keeps_bind {A B : Type} N (m : M D A) (k : A -> M D B) g :
  keeps_wf N (m g) ->
  (forall a g1, wf_graph g1 -> length (adjacency g1) = N -> keeps_wf N (k a g1)) ->
  keeps_wf N (bind m k g).
Proof. unfold bind. destruct (m g) as [[a g1]|e]; cbn; [intros [] ?|]; auto. Qed.

Lemma keeps_ret {A : Type} N (a : A) (g : Graph D) :
  wf_graph g -> length (adjacency g) = N -> keeps_wf N (ret a g).
Proof. cbn. auto. Qed.

(** Every edge of a node is well formed, its bins and its fuzzy-start
    list taken apart. *)
Lemma wf_graph_iff (g : Graph D) :
  wf_graph g <->
  length (fuzzy_starts g) = length (adjacency g) /\
  (0 < length (adjacency g))%nat /\
  (nodes g <= length (adjacency g))%nat /\
  (forall n, Forall (edge_ok (length (adjacency g))) (flat_map snd (nth n (adjacency g) []))) /\
  (forall n, Forall (edge_ok (length (adjacency g))) (nth n (fuzzy_starts g) [])).
Proof.
  unfold wf_graph, node_edges. split.
  - intros (A & B & C & E). repeat split; auto; intros n; specialize (E n);
      apply Forall_app in E; tauto.
  - intros (A & B & C & E & F). repeat split; auto. intros n. apply Forall_app. auto.
Qed.

Lemma map_snd_indexed loc i es : map snd (indexed loc i es) = es.
Proof. revert i. induction es as [|e es IH]; intros i; cbn; [reflexivity | rewrite IH; reflexivity]. Qed.

Lemma edges_at_ok (node : nat) (g : Graph D) :
  wf_graph g -> (node < length (adjacency g))%nat ->
  exists locs, edges_at node g = Ok (locs, g) /\
    Forall (fun x => edge_ok (length (adjacency g)) (snd x)) locs.
Proof.
  intros Hwf Hn. pose proof Hwf as (Hlf & _ & _ & Hedges).
  unfold edges_at, bind, gets, lift, py_nth, ret.
  rewrite (nth_error_nth' (adjacency g) [] Hn).
  rewrite (nth_error_nth' (fuzzy_starts g) [] (n := node) ltac:(lia)).
  eexists. split; [reflexivity|].
  apply Forall_map. rewrite map_app, map_snd_indexed.
  replace (map snd (flat_map (fun '(k, es) => indexed (ExactBin node k) 0 es)
                     (nth node (adjacency g) [])))
    with (flat_map snd (nth node (adjacency g) [])).
  - exact (Hedges node).
  - induction (nth node (adjacency g) []) as [|[k es] a IH]; cbn; [reflexivity|].
    rewrite map_app, map_snd_indexed, IH. reflexivity.
Qed.

(** Setting the weight of one edge keeps the graph well formed. *)
Lemma keeps_set_weight loc i w (g : Graph D) :
  wf_graph g ->
  keeps_wf (length (adjacency g)) (update_edge_at loc i (fun e0 => set_weight e0 w) g).
Proof.
  intros Hwf. apply wf_graph_iff in Hwf as (Hlf & Hl0 & Hln & Ha & Hf).
  assert (Hsw : forall N e, edge_ok N e -> edge_ok N (set_weight e w)) by (intros N e H; exact H).
  destruct loc as [n b|n]; cbn [update_edge_at modify keeps_wf];
    (split; [apply wf_graph_iff; cbn [adjacency fuzzy_starts nodes with_adjacency with_fuzzy_starts];
             rewrite ?upd_nth_length | cbn; rewrite ?upd_nth_length; reflexivity]).
  - repeat split; auto.
    intros m. destruct (nth_upd_nth_cases n m
       (fun adj => match dd_find Z.eqb b adj with
                   | Some es => dd_replace Z.eqb b (upd_nth i (fun e0 => set_weight e0 w) es) adj
                   | None => adj end) (adjacency g) []) as [E|E]; rewrite E; [apply Ha|].
    destruct (dd_find Z.eqb b (nth m (adjacency g) [])) eqn:Ef; [|apply Ha].
    apply dd_replace_forall; [|apply Ha].
    apply Forall_upd_nth; [apply Hsw|]. eapply dd_find_in_flat; [exact Ef | apply Ha].
  - repeat split; auto.
    intros m. destruct (nth_upd_nth_cases n m (upd_nth i (fun e0 => set_weight e0 w))
                          (fuzzy_starts g) []) as [E|E]; rewrite E; [apply Hf|].
    apply Forall_upd_nth; [apply Hsw | apply Hf].
Qed.

(** Each recursive walk of [finalize] keeps the graph well formed. *)
Lemma mean_fuzziness_safe N fuel node (g : Graph D) :
  wf_graph g -> length (adjacency g) = N -> (node < N)%nat ->
  keeps_wf N (mean_fuzziness fuel node g).
Proof.
  revert node g. induction fuel as [|fuel IH]; intros node g Hwf HN Hn; [cbn; discriminate|].
  cbn [mean_fuzziness].
  destruct (edges_at_ok node g Hwf ltac:(lia)) as (locs & Hl & Hf). rewrite HN in Hf.
  rewrite (bind_Ok _ _ _ _ _ Hl).
  match goal with
  | |- keeps_wf _ (?F locs [] [] g) =>
      enough (H : forall l r c g0, wf_graph g0 -> length (adjacency g0) = N ->
                  Forall (fun x => edge_ok N (snd x)) l -> keeps_wf N (F l r c g0))
        by exact (H locs [] [] g Hwf HN Hf)
  end.
  clear Hl Hf Hwf HN g locs.
  induction l as [|[[loc i] e] locs IHl]; intros r c g0 Hwf HN Hf; [|inversion_clear Hf as [|? ? He Hf']].
  - cbn. exact (conj Hwf HN).
  - cbv beta iota. apply keeps_bind.
    + apply IH; auto. destruct He; assumption.
    + intros [t_ratio t_count] g1 Hwf1 HN1. cbv beta iota.
      destruct (weighted_mean _ _) as [ratio count]. cbv beta iota.
      apply keeps_bind; [rewrite <- HN1; apply keeps_set_weight; exact Hwf1|].
      intros _ g2 Hwf2 HN2. apply IHl; assumption.
Qed.

Lemma max_match_size_safe N fuel node (g : Graph D) :
  wf_graph g -> length (adjacency g) = N -> (node < N)%nat ->
  keeps_wf N (max_match_size fuel node g).
Proof.
  revert node g. induction fuel as [|fuel IH]; intros node g Hwf HN Hn; [cbn; discriminate|].
  cbn [max_match_size].
  destruct (edges_at_ok node g Hwf ltac:(lia)) as (locs & Hl & Hf). rewrite HN in Hf.
  rewrite (bind_Ok _ _ _ _ _ Hl).
  match goal with
  | |- keeps_wf _ (?F locs 0 g) =>
      enough (H : forall l r g0, wf_graph g0 -> length (adjacency g0) = N ->
                  Forall (fun x => edge_ok N (snd x)) l -> keeps_wf N (F l r g0))
        by exact (H locs 0 g Hwf HN Hf)
  end.
  clear Hl Hf Hwf HN g locs.
  induction l as [|[[loc i] e] locs IHl]; intros r g0 Hwf HN Hf; [|inversion_clear Hf as [|? ? He Hf']].
  - cbn. exact (conj Hwf HN).
  - cbv beta iota. apply keeps_bind.
    + apply IH; auto. destruct He; assumption.
    + intros m g1 Hwf1 HN1. cbv beta iota zeta.
      apply keeps_bind; [rewrite <- HN1; apply keeps_set_weight; exact Hwf1|].
      intros _ g2 Hwf2 HN2. apply IHl; assumption.
Qed.

Lemma ins_by_perm before x l : Permutation (ins_by before x l) (x :: l).
Proof.
  induction l as [|y l IH]; cbn; [reflexivity|].
  destruct (before x y); [reflexivity|].
  transitivity (y :: x :: l); [apply perm_skip, IH | apply perm_swap].
Qed.

Lemma sorted_by_perm r l : Permutation (sorted_by r l) l.
Proof.
  unfold sorted_by. rewrite <- (app_nil_r l) at 2. generalize (@nil Edge).
  induction l as [|x l IH]; intros acc; cbn; [reflexivity|].
  rewrite IH, ins_by_perm. symmetry. apply Permutation_middle.
Qed.

Lemma Forall_perm_inv {A : Type} (P : A -> Prop) l l' :
  Permutation l l' -> Forall P l' -> Forall P l.
Proof.
  intros Hp H. apply Forall_forall. intros x Hx.
  eapply Forall_forall; [exact H | eapply Permutation_in; eauto].
Qed.

Lemma wf_upd_fuzzy n f (g : Graph D) :
  wf_graph g ->
  (forall x, Forall (edge_ok (length (adjacency g))) x ->
             Forall (edge_ok (length (adjacency g))) (f x)) ->
  wf_graph (with_fuzzy_starts g (upd_nth n f (fuzzy_starts g))).
Proof.
  intros Hwf Hf. apply wf_graph_iff in Hwf as (Hlf & Hl0 & Hln & Ha & Hfz).
  apply wf_graph_iff. cbn [adjacency fuzzy_starts nodes with_fuzzy_starts].
  rewrite upd_nth_length. repeat split; auto.
  intros m. destruct (nth_upd_nth_cases n m f (fuzzy_starts g) []) as [E|E]; rewrite E; auto.
Qed.

Lemma wf_upd_adj n f (g : Graph D) :
  wf_graph g ->
  (forall x, Forall (edge_ok (length (adjacency g))) (flat_map snd x) ->
             Forall (edge_ok (length (adjacency g))) (flat_map snd (f x))) ->
  wf_graph (with_adjacency g (upd_nth n f (adjacency g))).
Proof.
  intros Hwf Hf. apply wf_graph_iff in Hwf as (Hlf & Hl0 & Hln & Ha & Hfz).
  apply wf_graph_iff. cbn [adjacency fuzzy_starts nodes with_adjacency].
  rewrite upd_nth_length. repeat split; auto.
  intros m. destruct (nth_upd_nth_cases n m f (adjacency g) []) as [E|E]; rewrite E; auto.
Qed.

Lemma gets_lift_nth {A B : Type} (sel : Graph D -> list A) (d : A) node (k : A -> M D B) g :
  (node < length (sel g))%nat ->
  bind (gets sel) (fun l => bind (lift (py_nth l node)) k) g = k (nth node (sel g) d) g.
Proof.
  intros Hn. unfold bind, gets, lift, py_nth. rewrite (nth_error_nth' _ d Hn). reflexivity.
Qed.

Lemma sort_edges_safe N r (g : Graph D) :
  wf_graph g -> length (adjacency g) = N -> keeps_wf N (sort_edges_by_weight r g).
Proof.
  intros Hwf HN. unfold sort_edges_by_weight.
  rewrite (bind_Ok _ _ g (nodes g) g) by reflexivity. cbv beta.
  assert (Hs : Forall (fun x => (x < N)%nat) (seq 0 (nodes g))).
  { apply Forall_forall. intros x Hx. apply in_seq in Hx. destruct Hwf as (_ & _ & ? & _). lia. }
  match goal with
  | |- keeps_wf _ (?F _ g) =>
      enough (H : forall l g0, wf_graph g0 -> length (adjacency g0) = N ->
                  Forall (fun x => (x < N)%nat) l -> keeps_wf N (F l g0))
        by exact (H _ g Hwf HN Hs)
  end.
  clear Hs Hwf HN g.
  induction l as [|node rest IHl]; intros g Hwf HN Hs; [cbn; exact (conj Hwf HN)|].
  inversion_clear Hs as [|? ? Hn Hs'].
  pose proof Hwf as (Hlf & _ & _ & _).
  cbv beta iota. rewrite (gets_lift_nth _ [] node) by lia.
  assert (Hfz : Forall (edge_ok N) (nth node (fuzzy_starts g) [])).
  { apply wf_graph_iff in Hwf as (_ & _ & _ & _ & H). rewrite <- HN. apply H. }
  apply keeps_bind.
  { cbn [modify keeps_wf]. split; [|exact HN]. apply wf_upd_fuzzy; [exact Hwf|].
    intros _ _. rewrite HN. eapply Forall_perm_inv; [apply sorted_by_perm | exact Hfz]. }
  intros _ g1 Hwf1 HN1. rewrite (gets_lift_nth _ [] node) by lia.
  assert (Ha : Forall (edge_ok N) (flat_map snd (nth node (adjacency g1) []))).
  { apply wf_graph_iff in Hwf1 as (_ & _ & _ & H & _). rewrite <- HN1. apply H. }
  apply keeps_bind.
  { cbn [modify keeps_wf]. split; [|cbn; rewrite upd_nth_length; exact HN1].
    apply wf_upd_adj; [exact Hwf1|]. intros _ _. rewrite HN1.
    apply Forall_flat_map. apply Forall_map. apply Forall_flat_map in Ha.
    eapply Forall_impl; [|exact Ha]. intros [k es] H. cbn in *.
    eapply Forall_perm_inv; [apply sorted_by_perm | exact H]. }
  intros _ g2 Hwf2 HN2. apply IHl; assumption.
Qed.

(** [finalize] run on a well-formed graph raises no IndexError, and
    leaves a well-formed graph with the same nodes. *)
Lemma finalize_safe (g : Graph D) :
  wf_graph g -> keeps_wf (length (adjacency g)) (finalize g).
Proof.
  intros Hwf. remember (length (adjacency g)) as N eqn:HN. symmetry in HN.
  unfold finalize. rewrite (bind_Ok _ _ g (finalized g) g) by reflexivity. cbv beta.
  destruct (finalized g); [cbn; exact (conj Hwf HN)|].
  rewrite (bind_Ok _ _ g (nodes g) g) by reflexivity. cbv beta.
  apply keeps_bind; [apply mean_fuzziness_safe; auto; destruct Hwf as (_ & ? & _); lia|].
  intros _ g1 Hwf1 HN1. apply keeps_bind; [apply sort_edges_safe; auto|].
  intros _ g2 Hwf2 HN2. apply keeps_bind; [apply max_match_size_safe; auto; destruct Hwf2 as (_ & ? & _); lia|].
  intros lp g3 Hwf3 HN3. apply keeps_bind; [cbn [modify keeps_wf]; exact (conj Hwf3 HN3)|].
  intros _ g4 Hwf4 HN4. apply keeps_bind; [apply sort_edges_safe; auto|].
  intros _ g5 Hwf5 HN5. cbn [modify keeps_wf]. exact (conj Hwf5 HN5).
Qed.

End FinalizeSafe.

Lemma wf_check_sound {D : Type} (g : Graph D) : wf_check g = true -> wf_graph g.
Proof.
  unfold wf_check. intros H. apply andb_prop in H as [H H4].
  apply andb_prop in H as [H H3]. apply andb_prop in H as [H1 H2].
  apply Nat.eqb_eq in H1. apply Nat.ltb_lt in H2. apply Nat.leb_le in H3.
  repeat split; auto. intros n.
  destruct (Nat.ltb_spec n (length (adjacency g))) as [Hn|Hn].
  - rewrite forallb_forall in H4. specialize (H4 n ltac:(apply in_seq; lia)).
    apply Forall_forall. intros e He. rewrite forallb_forall in H4.
    specialize (H4 e He). unfold edge_okb in H4. apply andb_prop in H4 as [Ht Hl].
    apply Nat.ltb_lt in Ht. apply Z.leb_le in Hl. split; assumption.
  - unfold node_edges. rewrite !nth_overflow by lia. constructor.
Qed.

Lemma example_graph_wf : wf_graph example_graph.
Proof. apply wf_check_sound. vm_compute. reflexivity. Qed.

(** Claim C9: when the alignment is not negative, [match] run on a
    well-formed graph never ends with an IndexError, for every target
    and base offset: reading the byte past the end of the target only
    abandons that extension. *)
Theorem match_no_index_error (g : Graph nat) target offset align ys err g' :
  wf_graph g -> 0 <= align ->
  match_ g target offset align = (ys, err, g') -> err <> Some IndexError.
Proof.
  intros Hwf Ha H. unfold match_ in H.
  pose proof (finalize_safe g Hwf) as Hf.
  destruct (finalize g) as [[u g1]|e].
  - destruct Hf as [Hwf1 _]. exact (match_loop_safe _ _ _ _ 0 _ _ _ _ _ Hwf1 ltac:(lia) Ha H).
  - injection H; intros; subst. cbn in Hf. congruence.
Qed.

Lemma match_no_index_error_witness :
  wf_graph example_graph /\ 0 <= 2 /\
  snd (fst (match_ example_graph target_ABCDEF 0 2)) <> Some IndexError.
Proof.
  split; [exact example_graph_wf|]. split; [lia|].
  apply (match_no_index_error example_graph target_ABCDEF 0 2
           (fst (fst (match_ example_graph target_ABCDEF 0 2)))
           (snd (fst (match_ example_graph target_ABCDEF 0 2)))
           (snd (match_ example_graph target_ABCDEF 0 2))).
  - exact example_graph_wf.
  - lia.
  - vm_compute. reflexivity.
Defined.

(** Claim C9 fails for a negative alignment: on the empty graph, scanning
    the one-byte target [b'x'] with offset 3 and alignment -5 moves the
    position to [1 + (-4) mod -5 = -3], and reading [target[-3]] raises
    IndexError out of [match]. *)
Lemma match_index_claim_counterexample :
  wf_graph (new_graph (D := nat) 256) /\
  snd (fst (match_ (new_graph (D := nat) 256) [120] 3 (-5))) = Some IndexError.
Proof.
  split; [apply wf_check_sound; vm_compute; reflexivity|].
  vm_compute. reflexivity.
Qed.

(** ** What [insert] keeps *)

Section InsertFacts.
Context {D : Type}.

Lemma dd_find_app {K V : Type} (keq : K -> K -> bool) k (m l : list (K * list V)) :
  dd_find keq k (m ++ l) =
  match dd_find keq k m with Some v => Some v | None => dd_find keq k l end.
Proof.
  induction m as [|[k0 v0] m IH]; cbn; [reflexivity|]. destruct (keq k k0); auto.
Qed.

Lemma dd_find_replace_some {V : Type} (k k' : nat) (v v0 : list V) m :
  dd_find Nat.eqb k m = Some v0 ->
  dd_find Nat.eqb k' (dd_replace Nat.eqb k v m) =
  if Nat.eqb k' k then Some v else dd_find Nat.eqb k' m.
Proof.
  induction m as [|[k0 v1] m IH]; cbn [dd_find dd_replace]; [discriminate|].
  destruct (Nat.eqb_spec k k0) as [->|Hne]; intros H.
  - cbn [dd_find]. destruct (Nat.eqb_spec k' k0); reflexivity.
  - cbn [dd_find]. destruct (Nat.eqb_spec k' k0) as [->|Hne'].
    + destruct (Nat.eqb_spec k0 k); [congruence | reflexivity].
    + exact (IH H).
Qed.

(** [d[k].append(x)] on a defaultdict keyed by node ids. *)
Lemma dd_value_append {V : Type} (k k' : nat) (x : V) m :
  dd_value Nat.eqb k' (dd_append Nat.eqb k x m) =
  dd_value Nat.eqb k' m ++ (if Nat.eqb k' k then [x] else []).
Proof.
  unfold dd_append, dd_get. destruct (dd_find Nat.eqb k m) as [v0|] eqn:E.
  - unfold dd_value. rewrite (dd_find_replace_some _ _ _ _ _ E).
    destruct (Nat.eqb_spec k' k) as [->|]; [rewrite E; reflexivity | rewrite app_nil_r; reflexivity].
  - assert (E' : dd_find Nat.eqb k (m ++ [(k, [])]) = Some []).
    { rewrite dd_find_app, E. cbn. rewrite Nat.eqb_refl. reflexivity. }
    unfold dd_value. rewrite (dd_find_replace_some _ _ _ _ _ E').
    destruct (Nat.eqb_spec k' k) as [->|Hne]; [rewrite E; reflexivity|].
    rewrite dd_find_app. cbn [dd_find]. apply Nat.eqb_neq in Hne. rewrite Hne.
    destruct (dd_find Nat.eqb k' m); rewrite app_nil_r; reflexivity.
Qed.

Lemma dd_append_flat {K V : Type} (keq : K -> K -> bool) k (x : V) m (P : V -> Prop) :
  Forall P (flat_map snd m) -> P x -> Forall P (flat_map snd (dd_append keq k x m)).
Proof.
  intros Hm Hx. unfold dd_append. destruct (dd_get keq k m) as [v m1] eqn:E.
  apply dd_replace_forall.
  - apply Forall_app. split; [exact (dd_get_in_flat _ _ _ _ _ _ E Hm) | constructor; auto].
  - rewrite (dd_get_flat _ _ _ _ _ E). exact Hm.
Qed.

Lemma nth_app_nil {A : Type} (l : list (list A)) n : nth n (l ++ [[]]) [] = nth n l [].
Proof.
  destruct (Nat.ltb_spec n (length l)).
  - apply app_nth1. exact H.
  - rewrite app_nth2 by exact H. rewrite (nth_overflow l) by exact H.
    destruct (n - length l)%nat as [|[|k]]; reflexivity.
Qed.

Lemma edge_good_mono N N' e : (N <= N')%nat -> edge_good N e -> edge_good N' e.
Proof. intros H ((Ht & Hl) & Hp). repeat split; auto; lia. Qed.

Lemma all_edges_mono N N' (g : Graph D) :
  (N <= N')%nat -> all_edges (edge_good N) g -> all_edges (edge_good N') g.
Proof.
  intros H Ha n. eapply Forall_impl; [|apply Ha]. intros e. apply edge_good_mono, H.
Qed.

Lemma node_data_with_data_append (g : Graph D) n d m :
  node_data (with_data g (dd_append Nat.eqb n d (data g))) m =
  node_data g m ++ (if Nat.eqb m n then [d] else []).
Proof. unfold node_data. cbn [data with_data]. apply dd_value_append. Qed.

(** [run_ok] takes apart a hypothesis [m g = Ok r] along the monad's
    operations, branching at each test. *)
Ltac run_ok :=
  repeat match goal with
  | H : bind _ _ _ = Ok _ |- _ => let Hm := fresh "Hm" in bind_inv H Hm
  | H : ret _ _ = Ok _ |- _ => unfold ret in H; injection H; clear H; intros; subst
  | H : gets _ _ = Ok _ |- _ => unfold gets in H; injection H; clear H; intros; subst
  | H : modify _ _ = Ok _ |- _ => unfold modify in H; injection H; clear H; intros; subst
  | H : throw _ _ = Ok _ |- _ => discriminate H
  | H : lift ?r _ = Ok _ |- _ =>
      unfold lift in H; destruct r eqn:?; [injection H; clear H; intros; subst | discriminate H]
  | H : to_bin _ _ = Ok _ |- _ => unfold to_bin in H
  | H : py_nth _ _ = Ok _ |- _ => apply py_nth_Ok in H
  | H : (match ?x with _ => _ end) _ = Ok _ |- _ => destruct x eqn:?
  | H : match ?x with _ => _ end = Ok _ |- _ => destruct x eqn:?
  end.

Lemma nth_upd_nth_at {A : Type} n m (f : A -> A) l d :
  nth m (upd_nth n f l) d = nth m l d \/
  (m = n /\ nth m (upd_nth n f l) d = f (nth m l d)).
Proof.
  revert n m. induction l as [|x l IH]; intros [|n] [|m]; cbn; auto.
  destruct (IH n m) as [E|[-> E]]; auto.
Qed.

(** Split on whether [nth m] hits the updated position of [upd_nth]. *)
Ltac upd_cases :=
  lazymatch goal with
  | |- context [nth ?m (upd_nth ?a ?F ?l) ?d] =>
      let E := fresh "E" in
      destruct (nth_upd_nth_at a m F l d) as [E|[?Hm E]]; rewrite E
  end.

Lemma add_edge_spec from to_ p ms u (g g' : Graph D) :
  add_edge from to_ p ms g = Ok (u, g') ->
  data g' = data g /\ nodes g' = nodes g /\
  length (adjacency g') = length (adjacency g) /\
  length (fuzzy_starts g') = length (fuzzy_starts g) /\
  forall P, all_edges P g -> P (new_edge to_ p ms) -> all_edges P g'.
Proof.
  unfold add_edge. intros H. run_ok;
    cbn [data nodes adjacency fuzzy_starts with_fuzzy_starts with_adjacency];
    rewrite ?upd_nth_length; (split; [reflexivity|]); (split; [reflexivity|]);
    (split; [reflexivity|]); (split; [reflexivity|]);
    intros P HP He n; pose proof (HP n) as Hn; unfold node_edges in Hn |- *;
    cbn [adjacency fuzzy_starts with_fuzzy_starts with_adjacency];
    apply Forall_app in Hn as [H1 H2]; apply Forall_app.
  - upd_cases; split; auto. apply Forall_app. auto.
  - upd_cases; split; auto. apply dd_append_flat; auto.
Qed.

Lemma update_edge_at_spec loc i f u (g g' : Graph D) :
  update_edge_at loc i f g = Ok (u, g') ->
  data g' = data g /\ nodes g' = nodes g /\
  length (adjacency g') = length (adjacency g) /\
  length (fuzzy_starts g') = length (fuzzy_starts g) /\
  forall P, all_edges P g -> (forall e, P e -> P (f e)) -> all_edges P g'.
Proof.
  unfold update_edge_at. intros H. destruct loc as [n b|n]; run_ok;
    cbn [data nodes adjacency fuzzy_starts with_fuzzy_starts with_adjacency];
    rewrite ?upd_nth_length; (split; [reflexivity|]); (split; [reflexivity|]);
    (split; [reflexivity|]); (split; [reflexivity|]);
    intros P HP Hf m; pose proof (HP m) as Hm; unfold node_edges in Hm |- *;
    cbn [adjacency fuzzy_starts with_fuzzy_starts with_adjacency];
    apply Forall_app in Hm as [H1 H2]; apply Forall_app.
  - upd_cases; split; auto.
    match goal with |- context [dd_find Z.eqb b ?x] => destruct (dd_find Z.eqb b x) eqn:Ef end;
      [|exact H1].
    apply dd_replace_forall; [|exact H1].
    apply Forall_upd_nth; [exact Hf|]. exact (dd_find_in_flat _ _ _ _ _ Ef H1).
  - upd_cases; split; auto.
    apply Forall_upd_nth; auto.
Qed.


Lemma split_edge_spec e at_ e' (g g' : Graph D) :
  split_edge e at_ g = Ok (e', g') ->
  nodes g = length (adjacency g) -> length (fuzzy_starts g) = length (adjacency g) ->
  edge_good (length (adjacency g)) e -> 0 <= at_ <= len e ->
  length (adjacency g') = S (length (adjacency g)) /\
  length (fuzzy_starts g') = S (length (adjacency g)) /\
  nodes g' = S (length (adjacency g)) /\ data g' = data g /\
  (all_edges (edge_good (length (adjacency g))) g ->
   all_edges (edge_good (S (length (adjacency g)))) g') /\
  edge_good (S (length (adjacency g))) e' /\ to e' = length (adjacency g).
Proof.
  unfold split_edge. intros H Hn Hf He Hat.
  destruct (split_at (path e) at_) as [prefix fragment] eqn:Es.
  run_ok. unfold new_node in Hm. injection Hm; clear Hm; intros; subst.
  apply add_edge_spec in Hm1 as (Hd & Hno & Hla & Hlf & Hall).
  cbn [data nodes adjacency fuzzy_starts] in Hd, Hno, Hla, Hlf, Hall.
  rewrite length_app in Hla, Hlf. cbn [length] in Hla, Hlf.
  unfold split_at in Es. injection Es; clear Es; intros Efr Epr.
  destruct He as ((Hto & Hlen) & Hpl).
  repeat split; try lia.
  - exact Hd.
  - intros Ha. apply Hall.
    + intros n. unfold node_edges. cbn [adjacency fuzzy_starts]. rewrite !nth_app_nil.
      eapply Forall_impl; [|apply Ha]. intros x. apply edge_good_mono. lia.
    + unfold new_edge, set_path_len. repeat split; cbn [to len path]; unfold frag_len; lia.
  - cbn. lia.
  - cbn. lia.
  - cbn. rewrite <- Epr. unfold frag_len in *. cbn. rewrite length_firstn. lia.
  - cbn. lia.
Qed.


Lemma lcp_aux_le t1 z1 t2 z2 : (lcp_aux t1 z1 t2 z2 <= length t1)%nat.
Proof.
  revert z1 t2 z2. induction t1 as [|b t1 IH]; intros [|f z1] [|c t2] [|h z2]; cbn; try lia.
  destruct (Bool.eqb f h && (f || (b =? c))); [specialize (IH z1 t2 z2); lia | lia].
Qed.

Lemma classify_path_prefix e p c pl :
  classify_path e p = (c, pl) -> pl = longest_common_prefix (path e) p.
Proof. unfold classify_path. intros H. injection H. auto. Qed.

Lemma longest_common_prefix_bound f g : 0 <= longest_common_prefix f g <= frag_len f.
Proof.
  unfold longest_common_prefix, frag_len. pose proof (lcp_aux_le (template f) (fuzziness f)
    (template g) (fuzziness g)). lia.
Qed.

Lemma node_data_ext (g g' : Graph D) : data g' = data g -> forall m, node_data g' m = node_data g m.
Proof. intros H m. unfold node_data. rewrite H. reflexivity. Qed.

Lemma payload_added_ext d (g0 g g' : Graph D) :
  data g = data g0 -> payload_added d g g' -> payload_added d g0 g'.
Proof.
  intros H [n Hn]. exists n. intros m. rewrite Hn, (node_data_ext _ _ H). reflexivity.
Qed.

Lemma candidate_edges_spec next p loc es (g g' : Graph D) :
  candidate_edges next p g = Ok ((loc, es), g') ->
  data g' = data g /\ nodes g' = nodes g /\
  length (adjacency g') = length (adjacency g) /\
  length (fuzzy_starts g') = length (fuzzy_starts g) /\
  forall P, all_edges P g -> all_edges P g' /\ Forall P es.
Proof.
  unfold candidate_edges. intros H. run_ok.
  - do 4 (split; [reflexivity|]). intros P HP. split; [exact HP|].
    match goal with Hn : nth_error (fuzzy_starts _) _ = Some _ |- _ =>
      rewrite (nth_error_Some_nth _ _ _ [] Hn) end.
    pose proof (HP next) as Hn. unfold node_edges in Hn. apply Forall_app in Hn. tauto.
  - match goal with
    | Ha : nth_error (adjacency _) _ = Some ?a, Hd : dd_get _ _ ?a = _ |- _ =>
        rewrite (nth_error_Some_nth _ _ _ [] Ha) in Hd; rename Hd into Hget
    end.
    cbn [data nodes adjacency fuzzy_starts with_adjacency]. rewrite upd_nth_length.
    do 4 (split; [reflexivity|]). intros P HP. split.
    + intros m. pose proof (HP m) as Hm'. unfold node_edges in Hm' |- *.
      cbn [adjacency fuzzy_starts with_adjacency]. upd_cases; [exact Hm'|]. subst m.
      rewrite (dd_get_flat _ _ _ _ _ Hget). exact Hm'.
    + pose proof (HP next) as Hn. unfold node_edges in Hn. apply Forall_app in Hn as [Hn _].
      exact (dd_get_in_flat _ _ _ _ _ _ Hget Hn).
Qed.


(** The outcomes of the [for edge in edges] loop of [insert]. *)
Lemma insert_edges_spec ms d p loc i edges st (g g' : Graph D) :
  insert_edges ms d p loc i edges g = Ok (st, g') ->
  graph_inv g -> Forall (edge_good (length (adjacency g))) edges ->
  match st with
  | Descend n _ => g' = g /\ (n < length (adjacency g))%nat
  | Exhausted => g' = g
  | Return None => False
  | Return (Some false) =>
      graph_inv g' /\ length (adjacency g') = length (adjacency g) /\ payload_added d g g'
  | Return (Some true) =>
      graph_inv g' /\
      (length (adjacency g) < length (adjacency g') <= S (S (length (adjacency g))))%nat /\
      (payload_added d g g' \/ (d = None /\ forall m, node_data g' m = node_data g m))
  end.
Proof.
  revert i. induction edges as [|e es IH]; intros i H Hinv Hf; cbn [insert_edges] in H.
  - unfold ret in H. injection H as <- <-. reflexivity.
  - inversion_clear Hf as [|? ? He Hes].
    destruct (classify_path e p) as [c pl] eqn:Ec.
    pose proof (classify_path_prefix _ _ _ _ Ec) as Hpl.
    destruct c.
    + exact (IH _ H Hinv Hes).
    + run_ok. unfold append_data, modify in Hm. injection Hm; intros; subst.
      split; [exact Hinv|]. split; [reflexivity|].
      exists (to e). intros m. apply node_data_with_data_append.
    + run_ok. split; [reflexivity|]. destruct He as ((Ht & _) & _). exact Ht.
    + pose proof (longest_common_prefix_bound (path e) p) as Hb. rewrite <- Hpl in Hb.
      destruct Hinv as (Hlf & Hl0 & Hn & Ha).
      run_ok.
      all: apply split_edge_spec in Hm as (S1 & S2 & S3 & S4 & S5 & S6 & S7);
        [|auto|auto|auto|destruct He as (_ & Hp); lia].
      all: unfold set_edge_at in Hm0; apply update_edge_at_spec in Hm0 as (U1 & U2 & U3 & U4 & U5).
      all: pose proof (S5 Ha) as Ha0.
      all: assert (Ha2 : forall N, (S (length (adjacency g)) <= N)%nat ->
                         all_edges (edge_good N) g2)
             by (intros N HN; apply U5; [eapply all_edges_mono; [exact HN | exact Ha0]
                                        | intros _ _; eapply edge_good_mono; [exact HN | exact S6]]).
      * apply add_edge_spec in Hm1 as (A1 & A2 & A3 & A4 & A5).
        unfold new_node in Hm2. injection Hm2; intros; subst g'.
        split; [|split].
        -- unfold graph_inv. cbn [adjacency fuzzy_starts nodes]. rewrite !length_app.
           cbn [length]. repeat split; try lia.
           intros n. unfold node_edges. cbn [adjacency fuzzy_starts]. rewrite !nth_app_nil.
           apply A5; [apply Ha2; lia|].
           unfold new_edge. repeat split; cbn [to len path]; unfold frag_len; lia.
        -- cbn [adjacency]. rewrite length_app. cbn [length]. lia.
        -- destruct d as [x|].
           ++ left. exists (nodes g1). intros m. unfold node_data. cbn [data].
              rewrite dd_value_append, A1, U1, S4. reflexivity.
           ++ right. split; [reflexivity|]. intros m. unfold node_data. cbn [data].
              rewrite A1, U1, S4. reflexivity.
      * match goal with Hd : append_data _ _ _ = Ok _ |- _ =>
          unfold append_data, modify in Hd; injection Hd; intros; subst g' end.
        split; [|split].
        -- unfold graph_inv. cbn [adjacency fuzzy_starts nodes with_data].
           repeat split; try lia. apply Ha2. lia.
        -- cbn [adjacency with_data]. lia.
        -- left. exists (nodes g2 - 1)%nat. intros m.
           rewrite node_data_with_data_append, (node_data_ext _ _ (eq_trans U1 S4)). reflexivity.
Qed.


(** What a successful [insert] (and its [while] loop) leaves behind. *)
Lemma insert_loop_spec fuel ms d next p r (g g' : Graph D) :
  insert_loop fuel ms d next p g = Ok (r, g') -> graph_inv g ->
  graph_inv g' /\
  match r with
  | None => length (adjacency g') = length (adjacency g) /\
            forall m, node_data g' m = node_data g m
  | Some false => length (adjacency g') = length (adjacency g) /\ payload_added d g g'
  | Some true =>
      (length (adjacency g) < length (adjacency g') <= S (S (length (adjacency g))))%nat /\
      (payload_added d g g' \/ (d = None /\ forall m, node_data g' m = node_data g m))
  end.
Proof.
  revert next p g. induction fuel as [|fuel IH]; intros next p g H Hinv;
    cbn [insert_loop] in H; [discriminate H|].
  destruct (frag_len p >? 0).
  2:{ unfold ret in H. injection H as <- <-. split; [exact Hinv|]. split; reflexivity. }
  apply bind_Ok_inv in H as ([loc es] & g1 & Hc & H).
  apply candidate_edges_spec in Hc as (C1 & C2 & C3 & C4 & C5).
  destruct (C5 _ (proj2 (proj2 (proj2 Hinv)))) as [Ha1 Hes].
  assert (Hinv1 : graph_inv g1).
  { destruct Hinv as (? & ? & ? & _). unfold graph_inv. rewrite C2, C3, C4.
    split; [|split; [|split]]; auto. }
  cbv beta iota in H. apply bind_Ok_inv in H as (st & g2 & Hi & H).
  rewrite <- C3 in Hes.
  pose proof (insert_edges_spec _ _ _ _ _ _ _ _ _ Hi Hinv1 Hes) as Hst.
  destruct st as [n p'|r'|].
  - destruct Hst as [-> Hn].
    destruct (IH _ _ _ H Hinv1) as [Hinv' Hr]. split; [exact Hinv'|].
    rewrite C3 in Hr. destruct r as [[|]|].
    + destruct Hr as [Hl [Hp|[Hd Hm]]]; split; auto.
      * left. exact (payload_added_ext _ _ _ _ C1 Hp).
      * right. split; auto. intros m. rewrite Hm. apply node_data_ext, C1.
    + destruct Hr as [Hl Hp]. split; auto. exact (payload_added_ext _ _ _ _ C1 Hp).
    + destruct Hr as [Hl Hm]. split; auto. intros m. rewrite Hm. apply node_data_ext, C1.
  - unfold ret in H. injection H as <- <-. rewrite C3 in Hst.
    destruct r' as [[|]|]; [ | | contradiction].
    + destruct Hst as (Hinv' & Hl & [Hp|[Hd Hm]]); split; auto; split; auto.
      * left. exact (payload_added_ext _ _ _ _ C1 Hp).
      * right. split; auto. intros m. rewrite Hm. apply node_data_ext, C1.
    + destruct Hst as (Hinv' & Hl & Hp); split; auto; split; auto.
      exact (payload_added_ext _ _ _ _ C1 Hp).
  - subst g2. run_ok.
    apply add_edge_spec in Hm0 as (A1 & A2 & A3 & A4 & A5).
    unfold new_node in Hm1. injection Hm1; intros; subst g'.
    destruct Hinv1 as (Hlf & Hl0 & Hn & Ha).
    split; [|split].
    + unfold graph_inv. cbn [adjacency fuzzy_starts nodes]. rewrite !length_app.
      cbn [length]. repeat split; try lia.
      intros m. unfold node_edges. cbn [adjacency fuzzy_starts]. rewrite !nth_app_nil.
      apply A5; [eapply all_edges_mono; [|exact Ha]; lia|].
      unfold new_edge. repeat split; cbn [to len path]; unfold frag_len; lia.
    + cbn [adjacency]. rewrite length_app. cbn [length]. lia.
    + destruct d as [x|].
      * left. exists (nodes g2). intros m. unfold node_data. cbn [data].
        rewrite dd_value_append, A1, C1. reflexivity.
      * right. split; [reflexivity|]. intros m. unfold node_data. cbn [data].
        rewrite A1, C1. reflexivity.
Qed.

Lemma insert_spec p d r (g g' : Graph D) :
  insert p d g = Ok (r, g') -> graph_inv g ->
  graph_inv g' /\
  match r with
  | None => length (adjacency g') = length (adjacency g) /\
            forall m, node_data g' m = node_data g m
  | Some false => length (adjacency g') = length (adjacency g) /\ payload_added d g g'
  | Some true =>
      (length (adjacency g) < length (adjacency g') <= S (S (length (adjacency g))))%nat /\
      (payload_added d g g' \/ (d = None /\ forall m, node_data g' m = node_data g m))
  end.
Proof.
  unfold insert. intros H Hinv. apply bind_Ok_inv in H as (u & g1 & H1 & H).
  unfold modify in H1. injection H1; intros; subst g1.
  exact (insert_loop_spec _ _ _ _ _ _ _ _ H Hinv).
Qed.

End InsertFacts.

Lemma inv_check_sound {D : Type} (g : Graph D) : inv_check g = true -> graph_inv g.
Proof.
  unfold inv_check. intros H. apply andb_prop in H as [H H4].
  apply andb_prop in H as [H H3]. apply andb_prop in H as [H1 H2].
  apply Nat.eqb_eq in H1. apply Nat.ltb_lt in H2. apply Nat.eqb_eq in H3.
  split; [exact H1|]. split; [exact H2|]. split; [exact H3|]. intros n.
  destruct (Nat.ltb_spec n (length (adjacency g))) as [Hn|Hn].
  - rewrite forallb_forall in H4. specialize (H4 n ltac:(apply in_seq; lia)).
    apply Forall_forall. intros e He. rewrite forallb_forall in H4.
    specialize (H4 e He). unfold edge_goodb, edge_okb in H4.
    apply andb_prop in H4 as [H4 Hp]. apply andb_prop in H4 as [Ht Hl].
    apply Nat.ltb_lt in Ht. apply Z.leb_le in Hl. apply Z.eqb_eq in Hp.
    split; [split|]; assumption.
  - unfold node_edges. rewrite !nth_overflow by lia. constructor.
Qed.

Lemma new_graph_inv {D : Type} bc : graph_inv (new_graph (D := D) bc).
Proof.
  unfold graph_inv. cbn. split; [reflexivity|]. split; [lia|]. split; [reflexivity|].
  intros [|[|n]]; cbn; constructor.
Qed.

Lemma insert_all_inv {D : Type} (l : list (MatchFragment * option D)) :
  forall (m : M D unit) (g g' : Graph D) u,
  (forall u1 g1, m g = Ok (u1, g1) -> graph_inv g1) ->
  fold_left (fun m '(p, d) => m;;; (_ <- insert p d;; ret tt)) l m g = Ok (u, g') ->
  graph_inv g'.
Proof.
  induction l as [|[p d] l IH]; intros m g g' u Hm H; cbn [fold_left] in H.
  - exact (Hm _ _ H).
  - refine (IH _ _ _ _ _ H). intros u1 g1 H1.
    apply bind_Ok_inv in H1 as (a & g0 & H0 & H1).
    apply bind_Ok_inv in H1 as (r & g2 & H2 & H3).
    unfold ret in H3. injection H3; intros; subst g1.
    exact (proj1 (insert_spec _ _ _ _ _ H2 (Hm _ _ H0))).
Qed.

Lemma built_graph_inv {D : Type} bc (l : list (MatchFragment * option D)) u g :
  insert_all l (new_graph bc) = Ok (u, g) -> graph_inv g.
Proof.
  unfold insert_all. apply insert_all_inv. intros u1 g1 H.
  unfold ret in H. injection H; intros; subst. apply new_graph_inv.
Qed.

Lemma graph_inv_wf {D : Type} (g : Graph D) : graph_inv g -> wf_graph g.
Proof.
  intros (H1 & H2 & H3 & H4). repeat split; auto; [lia|].
  intros n. eapply Forall_impl; [|apply H4]. intros e [He _]. exact He.
Qed.

(** [insert] keeps the graph invariant: after a successful insert every
    node still has one bin map and one fuzzy-start list, [self.nodes]
    counts them, and every edge leads to an existing node and has a
    [len] equal to the length of its fragment. *)
Theorem insert_keeps_graph_inv {D : Type} p (d : option D) r (g g' : Graph D) :
  graph_inv g -> insert p d g = Ok (r, g') -> graph_inv g'.
Proof. intros Hinv H. exact (proj1 (insert_spec _ _ _ _ _ H Hinv)). Qed.

Lemma insert_keeps_graph_inv_witness :
  graph_inv (new_graph (D := nat) 256) /\
  graph_inv (run_graph (insert (frag [65; 66]) (Some 1%nat)) (new_graph 256)).
Proof.
  assert (H0 : graph_inv (new_graph (D := nat) 256)).
  { unfold graph_inv. cbn. split; [reflexivity|]. split; [lia|]. split; [reflexivity|].
    intros [|[|n]]; cbn; constructor. }
  split; [exact H0|].
  apply (insert_keeps_graph_inv (frag [65; 66]) (Some 1%nat) (Some true) (new_graph 256)); [exact H0|].
  vm_compute. reflexivity.
Defined.

(** [insert] creates nodes only when it returns [True]: one or two of
    them (the new leaf, and the node that splits an edge); it creates
    none when it returns [False] (a duplicate) or [None] (an empty
    fragment). *)
Theorem insert_node_count {D : Type} p (d : option D) r (g g' : Graph D) :
  graph_inv g -> insert p d g = Ok (r, g') ->
  match r with
  | Some true => (nodes g < nodes g' <= nodes g + 2)%nat
  | _ => nodes g' = nodes g
  end.
Proof.
  intros Hinv H. destruct (insert_spec _ _ _ _ _ H Hinv) as [Hinv' Hr].
  destruct Hinv as (_ & _ & Hn & _). destruct Hinv' as (_ & _ & Hn' & _).
  rewrite Hn, Hn'. destruct r as [[|]|]; destruct Hr as [Hl _]; lia.
Qed.

Lemma insert_node_count_witness :
  graph_inv (built_graph (D := nat) 256 sigs_AB_ABCD) /\
  insert (frag [65; 66; 88]%Z) (Some 4%nat) (built_graph 256 sigs_AB_ABCD) =
    Ok (Some true, run_graph (insert (frag [65; 66; 88]%Z) (Some 4%nat)) (built_graph 256 sigs_AB_ABCD)) /\
  (nodes (built_graph (D := nat) 256 sigs_AB_ABCD) <
   nodes (run_graph (insert (frag [65; 66; 88]%Z) (Some 4%nat)) (built_graph 256 sigs_AB_ABCD)) <=
   nodes (built_graph (D := nat) 256 sigs_AB_ABCD) + 2)%nat.
Proof.
  assert (H0 : graph_inv (built_graph (D := nat) 256 sigs_AB_ABCD))
    by (apply inv_check_sound; vm_compute; reflexivity).
  assert (E : insert (frag [65; 66; 88]%Z) (Some 4%nat) (built_graph 256 sigs_AB_ABCD) =
    Ok (Some true, run_graph (insert (frag [65; 66; 88]%Z) (Some 4%nat)) (built_graph 256 sigs_AB_ABCD)))
    by (vm_compute; reflexivity).
  split; [exact H0|]. split; [exact E|].
  exact (insert_node_count (frag [65; 66; 88]%Z) (Some 4%nat) (Some true) _ _ H0 E).
Defined.

(** A successful [insert] of a payload stores it exactly once: the
    payload lists of all nodes stay as they were, except that one node's
    list gains the payload at its end. An [insert] that returns [None]
    (an empty fragment) stores nothing. *)
Theorem insert_stores_payload {D : Type} p (x : D) r (g g' : Graph D) :
  graph_inv g -> insert p (Some x) g = Ok (r, g') ->
  match r with
  | None => forall m, node_data g' m = node_data g m
  | Some _ =>
      exists n, forall m, node_data g' m = node_data g m ++ (if Nat.eqb m n then [Some x] else [])
  end.
Proof.
  intros Hinv H. destruct (insert_spec _ _ _ _ _ H Hinv) as [_ Hr].
  destruct r as [[|]|].
  - destruct Hr as [_ [Hp|[Hd _]]]; [exact Hp | discriminate Hd].
  - destruct Hr as [_ Hp]. exact Hp.
  - destruct Hr as [_ Hm]. exact Hm.
Qed.

Lemma insert_stores_payload_witness :
  graph_inv (built_graph (D := nat) 256 sigs_AB_ABCD) /\
  insert (frag [65; 66]) (Some 7%nat) (built_graph 256 sigs_AB_ABCD) =
    Ok (Some false, run_graph (insert (frag [65; 66]) (Some 7%nat)) (built_graph 256 sigs_AB_ABCD)) /\
  exists n, forall m,
    node_data (run_graph (insert (frag [65; 66]) (Some 7%nat)) (built_graph 256 sigs_AB_ABCD)) m =
    node_data (built_graph 256 sigs_AB_ABCD) m ++ (if Nat.eqb m n then [Some 7%nat] else []).
Proof.
  assert (H0 : graph_inv (built_graph (D := nat) 256 sigs_AB_ABCD))
    by (apply inv_check_sound; vm_compute; reflexivity).
  assert (E : insert (frag [65; 66]) (Some 7%nat) (built_graph 256 sigs_AB_ABCD) =
    Ok (Some false, run_graph (insert (frag [65; 66]) (Some 7%nat)) (built_graph 256 sigs_AB_ABCD)))
    by (vm_compute; reflexivity).
  split; [exact H0|]. split; [exact E|].
  exact (insert_stores_payload (frag [65; 66]) 7%nat (Some false) _ _ H0 E).
Defined.

(** Every graph built with [Graph(bin_count)] and a sequence of
    successful [insert] calls is safe to scan: [match] on it, with an
    alignment that is not negative, never raises IndexError, for every
    target and base offset. *)
Theorem built_graph_match_no_index_error {D : Type} bc (l : list (MatchFragment * option D))
    u g target offset align ys err g' :
  insert_all l (new_graph bc) = Ok (u, g) -> 0 <= align ->
  match_ g target offset align = (ys, err, g') -> err <> Some IndexError.
Proof.
  intros Hb Ha H. pose proof (graph_inv_wf _ (built_graph_inv _ _ _ _ Hb)) as Hwf.
  unfold match_ in H. pose proof (finalize_safe g Hwf) as Hf.
  destruct (finalize g) as [[v g1]|e].
  - destruct Hf as [Hwf1 _]. exact (match_loop_safe _ _ _ _ 0 _ _ _ _ _ Hwf1 ltac:(lia) Ha H).
  - injection H; intros; subst. cbn in Hf. congruence.
Qed.

Lemma built_graph_match_no_index_error_witness :
  insert_all sigs_AB_ABCD (new_graph 256) = Ok (tt, built_graph 256 sigs_AB_ABCD) /\ 0 <= 2 /\
  snd (fst (match_ (built_graph 256 sigs_AB_ABCD) target_ABCDEF 0 2)) <> Some IndexError.
Proof.
  assert (Hb : insert_all sigs_AB_ABCD (new_graph 256) = Ok (tt, built_graph 256 sigs_AB_ABCD))
    by (vm_compute; reflexivity).
  split; [exact Hb|]. split; [lia|].
  apply (built_graph_match_no_index_error 256 sigs_AB_ABCD tt (built_graph 256 sigs_AB_ABCD)
           target_ABCDEF 0 2
           (fst (fst (match_ (built_graph 256 sigs_AB_ABCD) target_ABCDEF 0 2)))
           (snd (fst (match_ (built_graph 256 sigs_AB_ABCD) target_ABCDEF 0 2)))
           (snd (match_ (built_graph 256 sigs_AB_ABCD) target_ABCDEF 0 2)) Hb).
  - lia.
  - vm_compute. reflexivity.
Defined.

(** ** The workers against the sequential scan *)

Lemma matches_of_app {D : Type} (q1 q2 : list (QItem (D:=D))) :
  matches_of (q1 ++ q2) = matches_of q1 ++ matches_of q2.
Proof. unfold matches_of. apply flat_map_app. Qed.

Lemma matches_of_some {D : Type} (ys : list (MatchRes (D:=D))) : matches_of (map Some ys) = ys.
Proof. induction ys as [|y ys IH]; cbn; [reflexivity | f_equal; exact IH]. Qed.

(** A worker that takes the jobs [(slice, align)] for a list of slices
    puts on the results queue, sentinels aside, exactly the matches that
    [prepartioned_graph_match] yields for the same slices, in the same
    order, and stops on the same exception. *)
Theorem worker_matches_prepartioned {D : Type} (g : Graph D) binary slices align :
  matches_of (fst (worker g binary (map (fun s => (s, align)) slices))) =
    fst (fst (prepartioned_graph_match g binary slices align)) /\
  snd (worker g binary (map (fun s => (s, align)) slices)) =
    snd (fst (prepartioned_graph_match g binary slices align)).
Proof.
  revert g. induction slices as [|[start stop] slices IH]; intros g; [split; reflexivity|].
  cbn [map worker prepartioned_graph_match]. unfold yield_matches_to_queue.
  destruct (match_ g (py_slice binary start stop) start align) as [[ys err] g1].
  destruct err as [e|].
  - cbn [fst snd]. rewrite app_nil_r, matches_of_some. split; reflexivity.
  - destruct (IH g1) as [H1 H2].
    destruct (worker g1 binary (map (fun s => (s, align)) slices)) as [out' err'].
    destruct (prepartioned_graph_match g1 binary slices align) as [[ys' err''] g''].
    cbn [fst snd] in H1, H2 |- *.
    rewrite matches_of_app, (matches_of_app (map Some ys)), matches_of_some, H1.
    cbn [matches_of flat_map]. rewrite app_nil_r. split; [reflexivity | exact H2].
Qed.

(** ** The driver when a worker raises *)

Lemma worker_err_sentinels {D : Type} (g : Graph D) binary jobs out e :
  worker g binary jobs = (out, Some e) -> (count_sentinels out < length jobs)%nat.
Proof.
  revert g out. induction jobs as [|[[start stop] al] jobs IH]; intros g out H; cbn in H;
    [discriminate|].
  unfold yield_matches_to_queue in H.
  destruct (match_ g (py_slice binary start stop) start al) as [[ys err] g1].
  cbv beta iota zeta in H. destruct err as [e'|].
  - injection H as Ho _. subst out. rewrite app_nil_r, count_sentinels_some.
    cbn [length]. lia.
  - destruct (worker g1 binary jobs) as [out' err'] eqn:Ew. injection H as Ho He. subst out err'.
    pose proof (IH _ _ Ew) as Hc.
    rewrite count_sentinels_app, (count_sentinels_app (map Some ys)), count_sentinels_some.
    change (count_sentinels [@None (MatchRes (D:=D))]) with 1%nat. cbn [length]. lia.
Qed.

Lemma worker_sentinels_le {D : Type} (g : Graph D) binary jobs :
  (count_sentinels (fst (worker g binary jobs)) <= length jobs)%nat.
Proof.
  destruct (worker g binary jobs) as [out [e|]] eqn:Ew; cbn [fst].
  - apply worker_err_sentinels in Ew. lia.
  - apply worker_sentinels in Ew. lia.
Qed.

Lemma list_sum_lt {A : Type} (f h : A -> nat) (l : list A) x :
  (forall y, In y l -> f y <= h y)%nat -> In x l -> (f x < h x)%nat ->
  (list_sum (map f l) < list_sum (map h l))%nat.
Proof.
  induction l as [|y l IH]; intros Hle Hin Hlt; [destruct Hin|].
  cbn [map list_sum fold_right]. destruct Hin as [<-|Hin].
  - assert (list_sum (map f l) <= list_sum (map h l))%nat.
    { clear IH Hlt. induction l as [|z l IHl]; cbn [map list_sum fold_right]; [lia|].
      pose proof (Hle z ltac:(right; left; reflexivity)).
      assert (list_sum (map f l) <= list_sum (map h l))%nat.
      { apply IHl. intros w [<-|Hw]; apply Hle; [left; reflexivity | right; right; exact Hw]. }
      unfold list_sum in *. lia. }
    unfold list_sum in *. lia.
  - pose proof (Hle y ltac:(left; reflexivity)).
    assert (list_sum (map f l) < list_sum (map h l))%nat.
    { apply IH; auto. intros w Hw. apply Hle. right. exact Hw. }
    unfold list_sum in *. lia.
Qed.

(** With fewer sentinels to come than the count still expected, the
    merge loop reads every item and is left waiting on an empty queue. *)
Lemma merge_loop_blocks {D : Type} (q : list (QItem (D:=D))) done work :
  (count_sentinels q < work - done)%nat -> snd (merge_loop done work q) = None.
Proof.
  revert done. induction q as [|x q IH]; intros done Hc.
  - cbn [merge_loop]. replace (done <? work)%nat with true by (symmetry; apply Nat.ltb_lt; lia).
    reflexivity.
  - cbn [merge_loop]. replace (done <? work)%nat with true.
    2:{ symmetry. apply Nat.ltb_lt. lia. }
    destruct x as [m|]; unfold count_sentinels in Hc; cbn in Hc; fold (count_sentinels q) in Hc.
    + specialize (IH done Hc). destruct (merge_loop done work q) as [ys r]. exact IH.
    + apply IH. lia.
Qed.

(** When one of the launched workers raises while scanning (the
    exception is swallowed by [@logger.catch] before that slice's
    sentinel is put), the results queue, however the puts interleave,
    holds fewer than [len(slices)] sentinels: the driver's loop
    [while done < work] reads every item and then waits on [get()]
    forever. *)
Theorem parallel_driver_blocks_on_worker_error {D : Type} (g : Graph D) binary slices align
    workers assign q w e :
  length assign = length slices ->
  Forall (fun a => (a < workers)%nat) assign ->
  (w < workers)%nat ->
  snd (worker g binary (map (fun s => (s, align)) (jobs_of w assign slices))) = Some e ->
  interleaving (map fst (worker_outputs g binary slices align workers assign)) q ->
  (count_sentinels q < length slices)%nat /\
  snd (merge_loop 0 (length slices) q) = None.
Proof.
  intros Hl Ha Hw He Hi.
  assert (Hc : (count_sentinels q < length slices)%nat).
  { rewrite (interleaving_count _ _ Hi). unfold worker_outputs. rewrite !map_map.
    rewrite <- (jobs_of_total workers assign slices Hl Ha).
    apply (list_sum_lt _ _ _ w).
    - intros y _. rewrite <- (length_map (fun s => (s, align)) (jobs_of y assign slices)).
      apply worker_sentinels_le.
    - apply in_seq. lia.
    - destruct (worker g binary (map (fun s => (s, align)) (jobs_of w assign slices)))
        as [out err] eqn:Ew.
      cbn in He. subst err. apply worker_err_sentinels in Ew. rewrite length_map in Ew.
      exact Ew. }
  split; [exact Hc|]. apply merge_loop_blocks. lia.
Qed.

Lemma parallel_driver_blocks_on_worker_error_witness :
  let outs := worker_outputs example_graph [65; 66; 67; 68] [(0, 2); (2, 4)] 0 2 [0; 1]%nat in
  (count_sentinels (concat (map fst outs)) < 2)%nat /\
  snd (merge_loop 0 2 (concat (map fst outs))) = None.
Proof.
  apply (parallel_driver_blocks_on_worker_error example_graph [65; 66; 67; 68] [(0, 2); (2, 4)]
           0 2 [0; 1]%nat _ 0 ZeroDivisionError);
    [reflexivity | repeat constructor | lia | vm_compute; reflexivity | apply interleaving_concat].
Defined.

(** ** The sequential scan over partitions *)

Lemma match_loop_wf {D : Type} fuel target offset align pos acc (g : Graph D) ys err g' :
  wf_graph g -> match_loop fuel target offset align pos acc g = (ys, err, g') -> wf_graph g'.
Proof.
  revert pos acc g. induction fuel as [|fuel IH]; intros pos acc g Hwf H; cbn [match_loop] in H.
  - injection H; intros; subst; exact Hwf.
  - destruct (pos <? Z.of_nat (length target)); [|injection H; intros; subst; exact Hwf].
    destruct (match_body target offset pos g) as [[[y pos'] g1]|e] eqn:Eb;
      [|injection H; intros; subst; exact Hwf].
    pose proof (wf_same _ _ (match_body_frame _ _ _ _ _ _ Eb) Hwf) as Hwf1.
    destruct (realign offset align pos') as [pos''|e];
      [exact (IH _ _ _ Hwf1 H) | injection H; intros; subst; exact Hwf1].
Qed.

(** [match] on a well-formed graph: no IndexError when the alignment is
    not negative, and the graph stays well formed. *)
Lemma match_safe {D : Type} (g : Graph D) target offset align ys err g' :
  wf_graph g -> 0 <= align -> match_ g target offset align = (ys, err, g') ->
  err <> Some IndexError /\ wf_graph g'.
Proof.
  intros Hwf Ha H. unfold match_ in H. pose proof (finalize_safe g Hwf) as Hf.
  destruct (finalize g) as [[u g1]|e].
  - destruct Hf as [Hwf1 _]. split.
    + exact (match_loop_safe _ _ _ _ 0 _ _ _ _ _ Hwf1 ltac:(lia) Ha H).
    + exact (match_loop_wf _ _ _ _ _ _ _ _ _ _ Hwf1 H).
  - injection H; intros; subst. cbn in Hf. split; [congruence | exact Hwf].
Qed.

(** [prepartioned_graph_match] on a well-formed graph, with an
    alignment that is not negative, never raises IndexError, whatever
    the binary and the partition slices (slices past the end of the
    binary, empty or reversed, included). *)
Theorem prepartioned_no_index_error {D : Type} (g : Graph D) binary partitions align ys err g' :
  wf_graph g -> 0 <= align ->
  prepartioned_graph_match g binary partitions align = (ys, err, g') -> err <> Some IndexError.
Proof.
  revert g ys err g'. induction partitions as [|[start stop] ps IH]; intros g ys err g' Hwf Ha H;
    cbn [prepartioned_graph_match] in H; [injection H; intros; subst; discriminate|].
  destruct (match_ g (py_slice binary start stop) start align) as [[ys1 err1] g1] eqn:Em.
  destruct (match_safe _ _ _ _ _ _ _ Hwf Ha Em) as [Herr Hwf1].
  destruct err1 as [e|].
  - injection H; intros; subst. exact Herr.
  - destruct (prepartioned_graph_match g1 binary ps align) as [[ys2 err2] g2] eqn:Ep.
    injection H; intros; subst. exact (IH _ _ _ _ Hwf1 Ha Ep).
Qed.

Lemma prepartioned_no_index_error_witness :
  wf_graph example_graph /\ 0 <= 2 /\
  snd (fst (prepartioned_graph_match example_graph target_ABCDEF [(0, 4); (3, 9); (7, 2)] 2))
    <> Some IndexError.
Proof.
  split; [exact example_graph_wf|]. split; [lia|].
  apply (prepartioned_no_index_error example_graph target_ABCDEF [(0, 4); (3, 9); (7, 2)] 2
           (fst (fst (prepartioned_graph_match example_graph target_ABCDEF [(0, 4); (3, 9); (7, 2)] 2)))
           (snd (fst (prepartioned_graph_match example_graph target_ABCDEF [(0, 4); (3, 9); (7, 2)] 2)))
           (snd (prepartioned_graph_match example_graph target_ABCDEF [(0, 4); (3, 9); (7, 2)] 2))).
  - exact example_graph_wf.
  - lia.
  - vm_compute. reflexivity.
Defined.

(** ** Scanning a graph with no signature *)

Lemma finalize_new_graph {D : Type} bc :
  finalize (new_graph (D := D) bc) = Ok (tt, mkGraph [] [[]] [[]] 0 bc 1 true).
Proof. reflexivity. Qed.

Lemma dd_get_empty_bins {K V : Type} (keq : K -> K -> bool) k (m : list (K * list V)) es m' :
  dd_get keq k m = (es, m') -> Forall (fun kv => snd kv = []) m ->
  es = [] /\ Forall (fun kv => snd kv = []) m'.
Proof.
  unfold dd_get. intros H Hm. destruct (dd_find keq k m) as [v|] eqn:E.
  - injection H as <- <-. split; [|exact Hm]. clear -E Hm.
    induction m as [|[k' v'] m IH]; cbn in E; [discriminate|].
    inversion Hm; subst. destruct (keq k k'); [injection E as <-; assumption | auto].
  - injection H as <- <-. split; [reflexivity|]. apply Forall_app. split; [exact Hm | repeat constructor].
Qed.

Lemma empty_root_body {D : Type} target offset pos (g : Graph D) a0 :
  adjacency g = [a0] -> Forall (fun kv : Z * list Edge => snd kv = []) a0 ->
  fuzzy_starts g = [[]] -> bin_count g <> 0 ->
  0 <= pos < Z.of_nat (length target) ->
  exists a0', Forall (fun kv : Z * list Edge => snd kv = []) a0' /\
    match_body target offset pos g = Ok ((None, pos + 1), with_adjacency g [a0']).
Proof.
  intros Ha Hf Hfz Hbc Hp.
  destruct (py_index target pos) as [b|e] eqn:Ei;
    [|apply py_index_Err in Ei; lia].
  unfold match_body, to_bin, bind, lift, gets, modify, ret, throw. rewrite Ei.
  rewrite (proj2 (Z.eqb_neq _ _) Hbc), Ha. cbn [py_nth nth_error].
  destruct (dd_get Z.eqb (b mod bin_count g) a0) as [es a0'] eqn:Eg.
  destruct (dd_get_empty_bins _ _ _ _ _ Eg Hf) as [-> Hf'].
  cbn [fuzzy_starts with_adjacency]. rewrite Hfz, Ha. cbn.
  exists a0'. split; [exact Hf' | reflexivity].
Qed.

Lemma empty_root_loop {D : Type} fuel target offset align pos (g : Graph D) a0 :
  adjacency g = [a0] -> Forall (fun kv : Z * list Edge => snd kv = []) a0 ->
  fuzzy_starts g = [[]] -> bin_count g <> 0 -> 0 < align -> 0 <= pos ->
  Z.max 0 (Z.of_nat (length target) - pos) < Z.of_nat fuel ->
  fst (match_loop fuel target offset align pos [] g) = ([], None).
Proof.
  revert pos g a0. induction fuel as [|fuel IH]; intros pos g a0 Ha Hf Hfz Hbc Hal Hp Hfuel;
    [lia|].
  cbn [match_loop]. destruct (Z.ltb_spec pos (Z.of_nat (length target))) as [Hlt|Hge];
    [|reflexivity].
  destruct (empty_root_body target offset pos g a0 Ha Hf Hfz Hbc (conj Hp Hlt)) as [a0' [Hf' ->]].
  cbn [opt_list app]. unfold realign.
  replace (align =? 0) with false by (symmetry; apply Z.eqb_neq; lia).
  pose proof (Z.mod_pos_bound (- (pos + 1) - offset) align Hal).
  apply (IH _ _ a0'); cbn [adjacency fuzzy_starts bin_count with_adjacency]; auto; lia.
Qed.

(** A graph into which nothing was inserted matches nothing: with a
    non-zero bin count and a positive alignment, [match] on
    [Graph(bin_count)] yields no match and returns normally, for every
    target and base offset. *)
Theorem empty_graph_matches_nothing {D : Type} bc target offset align :
  bc <> 0 -> 0 < align ->
  fst (match_ (new_graph (D := D) bc) target offset align) = ([], None).
Proof.
  intros Hbc Hal. unfold match_. rewrite finalize_new_graph.
  apply (empty_root_loop _ _ _ _ _ _ []); cbn; auto; lia.
Qed.

Lemma empty_graph_matches_nothing_witness :
  256 <> 0 /\ 0 < 2 /\ fst (match_ (new_graph (D := nat) 256) target_ABCDEF 5 2) = ([], None).
Proof.
  split; [lia|]. split; [lia|].
  apply empty_graph_matches_nothing; lia.
Defined.

(** ** Edge order after [finalize] *)

Section SortFacts.
Context {D : Type}.

Ltac run_m :=
  repeat match goal with
  | H : bind _ _ _ = Ok _ |- _ => let Hm := fresh "Hm" in bind_inv H Hm
  | H : ret _ _ = Ok _ |- _ => unfold ret in H; injection H; clear H; intros; subst
  | H : gets _ _ = Ok _ |- _ => unfold gets in H; injection H; clear H; intros; subst
  | H : modify _ _ = Ok _ |- _ => unfold modify in H; injection H; clear H; intros; subst
  | H : lift ?r _ = Ok _ |- _ =>
      unfold lift in H; destruct r eqn:?; [injection H; clear H; intros; subst | discriminate H]
  | H : py_nth _ _ = Ok _ |- _ => apply py_nth_Ok in H
  end.

Lemma ins_by_sorted (R : Edge -> Edge -> Prop) before x l :
  (forall a b, before a b = true -> R a b) -> (forall a b, before a b = false -> R b a) ->
  Sorted R l -> Sorted R (ins_by before x l).
Proof.
  intros H1 H2. induction l as [|y l IH]; intros Hs; cbn; [repeat constructor|].
  destruct (before x y) eqn:E; [constructor; [exact Hs | constructor; apply H1, E]|].
  inversion Hs as [|? ? Hs' Hh]; subst. constructor; [apply IH, Hs'|].
  destruct l as [|z l]; cbn; [constructor; apply H2, E|].
  destruct (before x z); constructor; [apply H2, E | inversion Hh; assumption].
Qed.

Lemma sorted_by_sorted l :
  Sorted (fun a b => (weight a <= weight b)%Q) (sorted_by false l).
Proof.
  unfold sorted_by. cbv beta iota.
  assert (H : forall acc, Sorted (fun a b => (weight a <= weight b)%Q) acc ->
    Sorted (fun a b => (weight a <= weight b)%Q)
      (fold_left (fun acc x => ins_by (fun x y => negb (Qle_bool (weight y) (weight x))) x acc) l acc)).
  { induction l as [|x l IH]; intros acc Hs; cbn; [exact Hs|]. apply IH.
    apply ins_by_sorted; [| |exact Hs]; intros a b E.
    - apply negb_true_iff in E. apply Qlt_le_weak, Qnot_le_lt.
      intros Hle. apply Qle_bool_iff in Hle. congruence.
    - apply negb_false_iff in E. apply Qle_bool_iff, E. }
  apply H. constructor.
Qed.

Lemma sort_false_sorted (g g' : Graph D) u :
  sort_edges_by_weight false g = Ok (u, g') ->
  nodes g' = nodes g /\
  forall n, (n < nodes g)%nat ->
    Sorted (fun a b => (weight a <= weight b)%Q) (nth n (fuzzy_starts g') []) /\
    Forall (fun kv => Sorted (fun a b => (weight a <= weight b)%Q) (snd kv)) (nth n (adjacency g') []).
Proof.
  unfold sort_edges_by_weight. intros H.
  rewrite (bind_Ok _ _ g (nodes g) g) in H by reflexivity. cbv beta in H.
  match type of H with
  | ?F _ g = _ =>
      enough (E : forall l g0 u g1, F l g0 = Ok (u, g1) ->
        nodes g1 = nodes g0 /\
        (forall n, In n l ->
           Sorted (fun a b => (weight a <= weight b)%Q) (nth n (fuzzy_starts g1) []) /\
           Forall (fun kv => Sorted (fun a b => (weight a <= weight b)%Q) (snd kv)) (nth n (adjacency g1) [])) /\
        (forall n, ~ In n l ->
           nth n (fuzzy_starts g1) [] = nth n (fuzzy_starts g0) [] /\
           nth n (adjacency g1) [] = nth n (adjacency g0) []))
  end.
  { destruct (E _ _ _ _ H) as (Hn & Hs & _). split; [exact Hn|].
    intros n Hlt. apply Hs. apply in_seq. lia. }
  clear H u g g'. intros l. induction l as [|node rest IH]; intros g0 u g1 H.
  - cbn in H. injection H as <- <-. split; [reflexivity|]. split; [intros n []|]. auto.
  - cbv beta iota in H. run_m.
    destruct (IH _ _ _ H) as (Hn & Hin & Hout). clear H IH.
    cbn [with_adjacency with_fuzzy_starts adjacency fuzzy_starts nodes] in Heqr, Hn, Hout.
    split; [exact Hn|]. split.
    + intros n [<-|Hr]; [|apply Hin; exact Hr].
      destruct (in_dec Nat.eq_dec node rest) as [Hr|Hr]; [apply Hin; exact Hr|].
      destruct (Hout node Hr) as [E1 E2]. rewrite E1, E2.
      rewrite (nth_upd_nth_same _ _ _ _ _ Heqr0), (nth_upd_nth_same _ _ _ _ _ Heqr).
      split; [apply sorted_by_sorted|]. apply Forall_forall. intros [k es] Hk.
      apply in_map_iff in Hk. destruct Hk as [[k' es'] [Ek _]]. injection Ek as <- <-.
      apply sorted_by_sorted.
    + intros n Hr. assert (n <> node) by (intros ->; apply Hr; left; reflexivity).
      assert (~ In n rest) as Hr' by (intros Hn'; apply Hr; right; exact Hn').
      destruct (Hout n Hr') as [E1 E2]. rewrite E1, E2, !nth_upd_nth_other by auto.
      split; reflexivity.
Qed.

(** [finalize] on a graph that is not yet finalized (a fresh graph, or
    one [insert] has touched since) marks it finalized and leaves every
    node's fuzzy-start list, and every exact bin of the node, ordered by
    ascending weight: the last pass is [_sort_edges_by_weight(False)]. *)
Theorem finalize_orders_edges_by_weight (g g' : Graph D) u :
  finalized g = false -> finalize g = Ok (u, g') ->
  finalized g' = true /\
  forall n, (n < nodes g')%nat ->
    Sorted (fun a b => (weight a <= weight b)%Q) (nth n (fuzzy_starts g') []) /\
    Forall (fun kv => Sorted (fun a b => (weight a <= weight b)%Q) (snd kv)) (nth n (adjacency g') []).
Proof.
  intros Hf H. unfold finalize in H.
  rewrite (bind_Ok _ _ g (finalized g) g) in H by reflexivity. cbv beta in H. rewrite Hf in H.
  run_m.
  match goal with
  | Hs : sort_edges_by_weight false _ = Ok _ |- _ => destruct (sort_false_sorted _ _ _ Hs) as [Hn Hs']
  end.
  cbn [with_finalized nodes fuzzy_starts adjacency finalized]. split; [reflexivity|].
  intros n Hlt. apply Hs'. lia.
Qed.

End SortFacts.

Lemma finalize_orders_edges_by_weight_witness :
  let g := built_graph (D := nat) 256 sigs_AB_ABCD in
  finalized g = false /\ finalize g = Ok (tt, run_graph finalize g) /\
  finalized (run_graph finalize g) = true /\
  forall n, (n < nodes (run_graph finalize g))%nat ->
    Sorted (fun a b => (weight a <= weight b)%Q) (nth n (fuzzy_starts (run_graph finalize g)) []) /\
    Forall (fun kv => Sorted (fun a b => (weight a <= weight b)%Q) (snd kv))
      (nth n (adjacency (run_graph finalize g)) []).
Proof.
  intros g.
  assert (H1 : finalized g = false) by (vm_compute; reflexivity).
  assert (H2 : finalize g = Ok (tt, run_graph finalize g)) by (vm_compute; reflexivity).
  split; [exact H1|]. split; [exact H2|].
  exact (finalize_orders_edges_by_weight g (run_graph finalize g) tt H1 H2).
Defined.

(** ** Edge shapes kept by [finalize] and [match] *)

Section EdgeShape.
Context {D : Type}.
Variable P : Edge -> Prop.
Hypothesis P_set_weight : forall e w, P e -> P (set_weight e w).

Ltac run_e :=
  repeat match goal with
  | H : bind _ _ _ = Ok _ |- _ => let Hm := fresh "Hm" in bind_inv H Hm
  | H : ret _ _ = Ok _ |- _ => unfold ret in H; injection H; clear H; intros; subst
  | H : gets _ _ = Ok _ |- _ => unfold gets in H; injection H; clear H; intros; subst
  | H : modify _ _ = Ok _ |- _ => unfold modify in H; injection H; clear H; intros; subst
  | H : throw _ _ = Ok _ |- _ => discriminate H
  | H : lift ?r _ = Ok _ |- _ =>
      unfold lift in H; destruct r eqn:?; [injection H; clear H; intros; subst | discriminate H]
  | H : py_nth _ _ = Ok _ |- _ => apply py_nth_Ok in H
  end.

Lemma edges_at_reads node (g g' : Graph D) locs :
  edges_at node g = Ok (locs, g') -> g' = g.
Proof. unfold edges_at. intros H. run_e. reflexivity. Qed.

Lemma mean_fuzziness_edges fuel node (g g' : Graph D) r :
  mean_fuzziness fuel node g = Ok (r, g') -> all_edges P g -> all_edges P g'.
Proof.
  revert node g g' r. induction fuel as [|fuel IH]; intros node g g' r H HP;
    cbn [mean_fuzziness] in H; [discriminate|].
  bind_inv H Hm. apply edges_at_reads in Hm. subst.
  match type of H with
  | ?F ?x1 [] [] ?x2 = _ =>
      enough (E : forall l rs cs g0 r g', F l rs cs g0 = Ok (r, g') -> all_edges P g0 -> all_edges P g')
        by exact (E _ _ _ _ _ _ H HP)
  end.
  clear H HP. intros l. induction l as [|[[loc i] e] l IHl]; intros rs cs g0 r' g1 H HP.
  - cbn in H. injection H; intros; subst. exact HP.
  - cbv beta iota in H. bind_inv H Hm.
    match type of Hm with _ = Ok (?x, _) => destruct x as [tr tc] end.
    apply IH in Hm; [|exact HP]. cbv beta iota in H.
    destruct (weighted_mean _ _) as [ratio count]. bind_inv H Hm'.
    destruct (update_edge_at_spec _ _ _ _ _ _ Hm') as (_ & _ & _ & _ & Hu).
    apply (IHl _ _ _ _ _ H). apply Hu; [exact Hm | intros e0; apply P_set_weight].
Qed.

Lemma max_match_size_edges fuel node (g g' : Graph D) r :
  max_match_size fuel node g = Ok (r, g') -> all_edges P g -> all_edges P g'.
Proof.
  revert node g g' r. induction fuel as [|fuel IH]; intros node g g' r H HP;
    cbn [max_match_size] in H; [discriminate|].
  bind_inv H Hm. apply edges_at_reads in Hm. subst.
  match type of H with
  | ?F ?x1 0 ?x2 = _ =>
      enough (E : forall l acc g0 r g', F l acc g0 = Ok (r, g') -> all_edges P g0 -> all_edges P g')
        by exact (E _ _ _ _ _ H HP)
  end.
  clear H HP. intros l. induction l as [|[[loc i] e] l IHl]; intros acc g0 r' g1 H HP.
  - cbn in H. injection H; intros; subst. exact HP.
  - cbv beta iota in H. bind_inv H Hm. apply IH in Hm; [|exact HP].
    cbv beta iota zeta in H. bind_inv H Hm'.
    destruct (update_edge_at_spec _ _ _ _ _ _ Hm') as (_ & _ & _ & _ & Hu).
    apply (IHl _ _ _ _ H). apply Hu; [exact Hm | intros e0; apply P_set_weight].
Qed.

Lemma sort_edges_edges rev (g g' : Graph D) u :
  sort_edges_by_weight rev g = Ok (u, g') -> all_edges P g -> all_edges P g'.
Proof.
  unfold sort_edges_by_weight. intros H.
  rewrite (bind_Ok _ _ g (nodes g) g) in H by reflexivity. cbv beta in H.
  match type of H with
  | ?F ?x1 ?x2 = _ =>
      enough (E : forall l g0 u g', F l g0 = Ok (u, g') -> all_edges P g0 -> all_edges P g')
        by exact (E _ _ _ _ H)
  end.
  clear H. intros l. induction l as [|node rest IH]; intros g0 u' g1 H HP.
  - cbn in H. injection H; intros; subst. exact HP.
  - cbv beta iota in H. run_e. apply (IH _ _ _ H). clear H IH.
    intros m. pose proof (HP m) as Hm. unfold node_edges in Hm |- *.
    apply Forall_app in Hm as [Ha Hf]. apply Forall_app.
    cbn [with_adjacency with_fuzzy_starts adjacency fuzzy_starts] in Heqr |- *.
    split.
    + match goal with
      | |- context [nth m (upd_nth node ?f ?l) []] =>
          destruct (nth_upd_nth_at node m f l []) as [E|[-> E]]; rewrite E; [exact Ha|]
      end.
      match goal with
      | Hx : nth_error (adjacency _) node = Some _ |- _ =>
          rewrite <- (nth_error_Some_nth _ _ _ [] Hx) in Ha
      end.
      apply Forall_flat_map. apply Forall_map. apply Forall_flat_map in Ha.
      eapply Forall_impl; [|exact Ha]. intros [k es] Hk. cbn in Hk |- *.
      eapply Forall_perm_inv; [apply sorted_by_perm | exact Hk].
    + match goal with
      | |- context [nth m (upd_nth node ?f ?l) []] =>
          destruct (nth_upd_nth_at node m f l []) as [E|[-> E]]; rewrite E; [exact Hf|]
      end.
      match goal with
      | Hx : nth_error (fuzzy_starts _) node = Some _ |- _ =>
          rewrite <- (nth_error_Some_nth _ _ _ [] Hx) in Hf
      end.
      eapply Forall_perm_inv; [apply sorted_by_perm | exact Hf].
Qed.

Lemma finalize_edges (g g' : Graph D) u :
  finalize g = Ok (u, g') -> all_edges P g -> all_edges P g'.
Proof.
  intros H HP. unfold finalize in H.
  rewrite (bind_Ok _ _ g (finalized g) g) in H by reflexivity. cbv beta in H.
  destruct (finalized g); [injection H; intros; subst; exact HP|].
  run_e.
  repeat match goal with
  | Hx : mean_fuzziness _ _ _ = Ok _ |- _ => apply mean_fuzziness_edges in Hx; [|assumption]
  | Hx : max_match_size _ _ _ = Ok _ |- _ => apply max_match_size_edges in Hx; [|assumption]
  | Hx : sort_edges_by_weight _ _ = Ok _ |- _ => apply sort_edges_edges in Hx; [|assumption]
  end.
  unfold all_edges, node_edges in *. cbn [with_longest_path with_finalized adjacency fuzzy_starts] in *.
  assumption.
Qed.

End EdgeShape.

(** ** Where the reported matches end *)

Section MatchBounds.
Context {D : Type}.

Ltac run_b :=
  repeat match goal with
  | H : bind _ _ _ = Ok _ |- _ => let Hm := fresh "Hm" in bind_inv H Hm
  | H : bind _ _ _ = Err _ |- _ =>
      let Hm := fresh "Hm" in
      apply bind_Err_inv in H; destruct H as [H | [?a [?g [Hm H]]]]
  | H : ret _ _ = Ok _ |- _ => unfold ret in H; injection H; clear H; intros; subst
  | H : ret _ _ = Err _ |- _ => discriminate H
  | H : gets _ _ = Ok _ |- _ => unfold gets in H; injection H; clear H; intros; subst
  | H : gets _ _ = Err _ |- _ => discriminate H
  | H : modify _ _ = Ok _ |- _ => unfold modify in H; injection H; clear H; intros; subst
  | H : modify _ _ = Err _ |- _ => discriminate H
  | H : throw _ _ = Ok _ |- _ => discriminate H
  | H : throw _ _ = Err _ |- _ => unfold throw in H; injection H; clear H; intros; subst
  | H : lift ?r _ = Ok _ |- _ =>
      unfold lift in H; destruct r eqn:?; [injection H; clear H; intros; subst | discriminate H]
  | H : lift ?r _ = Err _ |- _ =>
      unfold lift in H; destruct r eqn:?; [discriminate H | injection H; clear H; intros; subst]
  | H : to_bin _ _ = _ |- _ => unfold to_bin in H
  | H : update_edge_at _ _ _ _ = _ |- _ => unfold update_edge_at in H
  | H : py_nth _ _ = Ok _ |- _ => apply py_nth_Ok in H
  | H : py_nth _ _ = Err _ |- _ => apply py_nth_Err in H
  | H : inl _ = inr _ |- _ => discriminate H
  | H : inr _ = inl _ |- _ => discriminate H
  | H : inl _ = inl _ |- _ => injection H; clear H; intros; subst
  | H : inr _ = inr _ |- _ => injection H; clear H; intros; subst
  | H : false = true |- _ => discriminate H
  | H : true = false |- _ => discriminate H
  | H : (match ?x with _ => _ end) _ = _ |- _ => destruct x eqn:?
  | H : match ?x with _ => _ end = _ |- _ => destruct x eqn:?
  end.

Lemma eq_bytes_length t z bs : eq_bytes t z bs = true -> length bs = length t.
Proof.
  revert z bs. induction t as [|b t IH]; intros [|f z] [|c bs]; cbn; try discriminate; auto.
  intros H. apply andb_prop in H as [_ H]. f_equal. exact (IH _ _ H).
Qed.

Lemma py_slice_length_le {A : Type} (l : list A) a b :
  0 <= a <= Z.of_nat (length l) ->
  Z.of_nat (length (py_slice l a b)) <= Z.of_nat (length l) - a.
Proof.
  intros Ha. unfold py_slice. cbv zeta.
  replace (a <? 0) with false by (symmetry; apply Z.ltb_ge; lia).
  replace (Z.max 0 (Z.min a (Z.of_nat (length l)))) with a by lia.
  rewrite length_firstn, length_skipn. lia.
Qed.

Lemma edge_match_end target p edge :
  0 <= p <= Z.of_nat (length target) -> len edge = frag_len (path edge) ->
  edge_matches edge (py_slice target p (p + len edge)) = true ->
  0 <= len edge /\ p + len edge <= Z.of_nat (length target).
Proof.
  intros Hp Hl Hm. unfold edge_matches, frag_eq_bytes in Hm.
  apply eq_bytes_length in Hm. pose proof (py_slice_length_le target p (p + len edge) Hp) as Hs.
  rewrite Hm in Hs. unfold frag_len in Hl. lia.
Qed.

Lemma all_edges_same P (g g' : Graph D) : same_structure g g' -> all_edges P g -> all_edges P g'.
Proof. intros (_ & _ & _ & E & _) H n. rewrite <- E. apply H. Qed.

Lemma inner_step_bounds target offset p edge rest inter (g g' : Graph D) st :
  all_edges (fun e => len e = frag_len (path e)) g ->
  0 <= p <= Z.of_nat (length target) -> len edge = frag_len (path edge) ->
  Forall (fun pe => 0 <= fst pe <= Z.of_nat (length target) /\
                    len (snd pe) = frag_len (path (snd pe))) rest ->
  (forall d ms q, inter = Some (d, ms, q) -> 0 <= q <= Z.of_nat (length target)) ->
  inner_step target offset p edge rest inter g = Ok (st, g') ->
  match st with
  | Continue s i =>
      Forall (fun pe => 0 <= fst pe <= Z.of_nat (length target) /\
                        len (snd pe) = frag_len (path (snd pe))) s /\
      (forall d ms q, i = Some (d, ms, q) -> 0 <= q <= Z.of_nat (length target))
  | Break y np => offset <= snd y <= offset + Z.of_nat (length target) /\ 0 <= np
  end.
Proof.
  intros HE Hp Hl Hr Hi H. unfold inner_step in H.
  destruct (edge_matches edge (py_slice target p (p + len edge))) eqn:Em;
    [|unfold ret in H; injection H; intros; subst; split; assumption].
  destruct (edge_match_end _ _ _ Hp Hl Em) as [Hl0 Hend].
  run_b; cbn [snd fst] in *; try lia.
  all: repeat match goal with |- _ /\ _ => split end.
  all: try exact Hr. all: try exact Hi.
  all: try (intros d ms q Hq; injection Hq; intros; subst; lia).
  all: apply Forall_app; split; try exact Hr.
  all: apply Forall_rev; apply Forall_map.
  all: cbn [fuzzy_starts adjacency with_adjacency with_data] in *.
  all: match goal with
       | Ha : nth_error (adjacency _) _ = Some ?a, Hd : dd_get _ _ ?a = _,
         Hf : nth_error (fuzzy_starts _) _ = Some ?f |- _ =>
           pose proof (HE (to edge)) as Hn; unfold node_edges in Hn;
           apply Forall_app in Hn as [Hna Hnf];
           rewrite <- (nth_error_Some_nth _ _ _ [] Ha) in Hna;
           rewrite <- (nth_error_Some_nth _ _ _ [] Hf) in Hnf;
           apply (dd_get_in_flat _ _ _ _ _ _ Hd) in Hna
       end.
  all: eapply Forall_impl; [|apply Forall_app; split; eassumption].
  all: intros t Ht; cbn [fst snd]; split; [lia | exact Ht].
Qed.

Lemma inner_loop_bounds fuel target offset stack inter (g g' : Graph D) out :
  all_edges (fun e => len e = frag_len (path e)) g ->
  Forall (fun pe => 0 <= fst pe <= Z.of_nat (length target) /\
                    len (snd pe) = frag_len (path (snd pe))) stack ->
  (forall d ms q, inter = Some (d, ms, q) -> 0 <= q <= Z.of_nat (length target)) ->
  inner_loop fuel target offset stack inter g = Ok (out, g') ->
  match out with
  | Broke y np => offset <= snd y <= offset + Z.of_nat (length target) /\ 0 <= np
  | Drained i => forall d ms q, i = Some (d, ms, q) -> 0 <= q <= Z.of_nat (length target)
  end.
Proof.
  revert stack inter g. induction fuel as [|fuel IH]; intros stack inter g HE Hs Hi H;
    cbn [inner_loop] in H; [discriminate|].
  destruct stack as [|[p edge] rest]; [unfold ret in H; injection H; intros; subst; exact Hi|].
  inversion Hs as [|? ? [Hp Hl] Hrest]; subst. cbn [fst snd] in Hp, Hl.
  bind_inv H Hm.
  pose proof (inner_step_bounds _ _ _ _ _ _ _ _ _ HE Hp Hl Hrest Hi Hm) as Hst.
  pose proof (all_edges_same _ _ _ (inner_step_frame _ _ _ _ _ _ _ _ _ Hm) HE) as HE'.
  destruct a as [s i|y np].
  - destruct Hst as [Hs' Hi']. exact (IH _ _ _ HE' Hs' Hi' H).
  - unfold ret in H. injection H; intros; subst. exact Hst.
Qed.

Lemma match_body_bounds target offset pos (g g' : Graph D) y pos' :
  all_edges (fun e => len e = frag_len (path e)) g ->
  0 <= pos < Z.of_nat (length target) ->
  match_body target offset pos g = Ok ((y, pos'), g') ->
  (forall r, y = Some r -> offset <= snd r <= offset + Z.of_nat (length target)) /\ 0 <= pos'.
Proof.
  intros HE Hpos H. unfold match_body in H. run_b.
  all: cbn [fuzzy_starts adjacency with_adjacency] in *.
  all: match goal with
       | Hn : nth_error (adjacency _) 0 = Some ?a0, Hd : dd_get _ _ ?a0 = (_, ?a0'),
         Hl : inner_loop _ _ _ _ _ ?g1 = Ok _ |- _ =>
           assert (HE1 : all_edges (fun e => len e = frag_len (path e)) g1)
             by exact (all_edges_same _ _ _ (same_adj_get _ _ _ _ _ _ Hn Hd) HE);
           refine (_ (inner_loop_bounds _ _ _ _ _ _ _ _ HE1 _ _ Hl)); [| |intros; discriminate]
       end.
  all: try (cbn; intros Hout; split; [intros r Hr; injection Hr; intros; subst; cbn; lia | lia]).
  all: try (cbn; intros Hout; specialize (Hout _ _ _ eq_refl);
            split; [intros r Hr; injection Hr; intros; subst; cbn; lia | lia]).
  all: try (cbn; intros _; split; [intros r Hr; discriminate | lia]).
  all: apply Forall_rev; apply Forall_map.
  all: match goal with
       | Hn : nth_error (adjacency _) 0 = Some ?a0, Hd : dd_get _ _ ?a0 = _,
         Hf : nth_error (fuzzy_starts _) 0 = Some ?f0 |- _ =>
           pose proof (HE 0%nat) as Hn0; unfold node_edges in Hn0;
           apply Forall_app in Hn0 as [Hna Hnf];
           rewrite <- (nth_error_Some_nth _ _ _ [] Hn) in Hna;
           rewrite <- (nth_error_Some_nth _ _ _ [] Hf) in Hnf;
           apply (dd_get_in_flat _ _ _ _ _ _ Hd) in Hna
       end.
  all: eapply Forall_impl; [|apply Forall_app; split; eassumption].
  all: intros t Ht; cbn [fst snd]; split; [lia | exact Ht].
Qed.

Lemma match_loop_bounds fuel target offset align pos acc (g g' : Graph D) ys err :
  all_edges (fun e => len e = frag_len (path e)) g -> 0 <= pos -> 0 <= align ->
  Forall (fun y : MatchRes => offset <= snd y <= offset + Z.of_nat (length target)) acc ->
  match_loop fuel target offset align pos acc g = (ys, err, g') ->
  Forall (fun y : MatchRes => offset <= snd y <= offset + Z.of_nat (length target)) ys /\
  all_edges (fun e => len e = frag_len (path e)) g'.
Proof.
  revert pos acc g. induction fuel as [|fuel IH]; intros pos acc g HE Hp Ha Hacc H;
    cbn [match_loop] in H.
  - injection H; intros; subst. split; [apply Forall_rev, Hacc | exact HE].
  - destruct (Z.ltb_spec pos (Z.of_nat (length target))) as [Hlt|Hge];
      [|injection H; intros; subst; split; [apply Forall_rev, Hacc | exact HE]].
    destruct (match_body target offset pos g) as [[[y pos'] g1]|e] eqn:Eb;
      [|injection H; intros; subst; split; [apply Forall_rev, Hacc | exact HE]].
    destruct (match_body_bounds _ _ _ _ _ _ _ HE (conj Hp Hlt) Eb) as [Hy Hp'].
    pose proof (all_edges_same _ _ _ (match_body_frame _ _ _ _ _ _ Eb) HE) as HE1.
    assert (Hacc' : Forall (fun y : MatchRes => offset <= snd y <= offset + Z.of_nat (length target))
                      (opt_list y ++ acc)).
    { apply Forall_app. split; [|exact Hacc]. destruct y as [r|]; cbn; [|constructor].
      constructor; [apply Hy; reflexivity | constructor]. }
    destruct (realign offset align pos') as [pos''|e] eqn:Er.
    + exact (IH _ _ _ HE1 (realign_nonneg _ _ _ _ Ha Hp' Er) Ha Hacc' H).
    + injection H; intros; subst. split; [apply Forall_rev, Hacc' | exact HE1].
Qed.

Lemma match_bounds (g g' : Graph D) target offset align ys err :
  all_edges (fun e => len e = frag_len (path e)) g -> 0 <= align ->
  match_ g target offset align = (ys, err, g') ->
  Forall (fun y : MatchRes => offset <= snd y <= offset + Z.of_nat (length target)) ys /\
  all_edges (fun e => len e = frag_len (path e)) g'.
Proof.
  intros HE Ha H. unfold match_ in H. destruct (finalize g) as [[u g1]|e] eqn:Ef.
  - apply (match_loop_bounds _ _ _ _ 0 _ g1 _ _ _ (finalize_edges (fun e => len e = frag_len (path e)) (fun e w He => He) _ _ _ Ef HE)
             ltac:(lia) Ha (Forall_nil _) H).
  - injection H; intros; subst. split; [constructor | exact HE].
Qed.

End MatchBounds.

Lemma built_graph_edge_lengths {D : Type} bc (l : list (MatchFragment * option D)) u g :
  insert_all l (new_graph bc) = Ok (u, g) -> all_edges (fun e => len e = frag_len (path e)) g.
Proof.
  intros H n. destruct (built_graph_inv _ _ _ _ H) as (_ & _ & _ & HE).
  eapply Forall_impl; [|apply HE]. intros e [_ He]. exact He.
Qed.

(** The end address of every match [match] yields on a graph built by
    [insert] lies within the scanned target: between the base offset and
    the base offset plus the target length (alignment not negative). *)
Theorem built_graph_match_ends_in_target {D : Type} bc (l : list (MatchFragment * option D))
    u g target offset align ys err g' :
  insert_all l (new_graph bc) = Ok (u, g) -> 0 <= align ->
  match_ g target offset align = (ys, err, g') ->
  Forall (fun y => offset <= snd y <= offset + Z.of_nat (length target)) ys.
Proof.
  intros Hb Ha H. exact (proj1 (match_bounds g g' target offset align ys err
                                  (built_graph_edge_lengths _ _ _ _ Hb) Ha H)).
Qed.

Lemma built_graph_match_ends_in_target_witness :
  insert_all sigs_AB_ABCD (new_graph 256) = Ok (tt, built_graph 256 sigs_AB_ABCD) /\ 0 <= 2 /\
  Forall (fun y => 7 <= snd y <= 7 + Z.of_nat (length target_ABCDEF))
    (fst (fst (match_ (built_graph 256 sigs_AB_ABCD) target_ABCDEF 7 2))).
Proof.
  assert (Hb : insert_all sigs_AB_ABCD (new_graph 256) = Ok (tt, built_graph 256 sigs_AB_ABCD))
    by (vm_compute; reflexivity).
  split; [exact Hb|]. split; [lia|].
  apply (built_graph_match_ends_in_target 256 sigs_AB_ABCD tt (built_graph 256 sigs_AB_ABCD)
           target_ABCDEF 7 2 _
           (snd (fst (match_ (built_graph 256 sigs_AB_ABCD) target_ABCDEF 7 2)))
           (snd (match_ (built_graph 256 sigs_AB_ABCD) target_ABCDEF 7 2)) Hb).
  - lia.
  - vm_compute. reflexivity.
Defined.

Lemma prepartioned_bounds {D : Type} (g g' : Graph D) binary parts align ys err :
  all_edges (fun e => len e = frag_len (path e)) g -> 0 <= align ->
  prepartioned_graph_match g binary parts align = (ys, err, g') ->
  Forall (fun y : MatchRes (D:=D) => exists start stop, In (start, stop) parts /\
            start <= snd y <= start + Z.of_nat (length (py_slice binary start stop))) ys.
Proof.
  revert g ys err. induction parts as [|[start stop] ps IH]; intros g ys err HE Ha H;
    cbn [prepartioned_graph_match] in H; [injection H; intros; subst; constructor|].
  destruct (match_ g (py_slice binary start stop) start align) as [[ys1 err1] g1] eqn:Em.
  destruct (match_bounds _ _ _ _ _ _ _ HE Ha Em) as [Hys1 HE1].
  assert (H1 : Forall (fun y : MatchRes (D:=D) => exists start' stop', In (start', stop') ((start, stop) :: ps) /\
            start' <= snd y <= start' + Z.of_nat (length (py_slice binary start' stop'))) ys1).
  { eapply Forall_impl; [|exact Hys1]. intros y Hy. exists start, stop. split; [left; reflexivity | exact Hy]. }
  destruct err1 as [e|]; [injection H; intros; subst; exact H1|].
  destruct (prepartioned_graph_match g1 binary ps align) as [[ys2 err2] g2] eqn:Ep.
  injection H; intros; subst. apply Forall_app. split; [exact H1|].
  eapply Forall_impl; [|exact (IH _ _ _ HE1 Ha Ep)].
  intros y (s & t & Hin & Hy). exists s, t. split; [right; exact Hin | exact Hy].
Qed.

(** Every match [prepartioned_graph_match] yields on a graph built by
    [insert] ends inside one of the partition slices: for some slice
    [(start, stop)] of the partitions, its end address lies between
    [start] and [start] plus the length of [binary[start:stop]]
    (alignment not negative). *)
Theorem prepartioned_ends_in_slices {D : Type} bc (l : list (MatchFragment * option D)) u g
    binary parts align ys err g' :
  insert_all l (new_graph bc) = Ok (u, g) -> 0 <= align ->
  prepartioned_graph_match g binary parts align = (ys, err, g') ->
  Forall (fun y => exists start stop, In (start, stop) parts /\
            start <= snd y <= start + Z.of_nat (length (py_slice binary start stop))) ys.
Proof.
  intros Hb Ha H. exact (prepartioned_bounds g g' binary parts align ys err
                           (built_graph_edge_lengths _ _ _ _ Hb) Ha H).
Qed.

Lemma prepartioned_ends_in_slices_witness :
  insert_all sigs_AB_ABCD (new_graph 256) = Ok (tt, built_graph 256 sigs_AB_ABCD) /\ 0 <= 2 /\
  Forall (fun y => exists start stop, In (start, stop) [(0, 4); (2, 9)] /\
            start <= snd y <= start + Z.of_nat (length (py_slice target_ABCDEF start stop)))
    (fst (fst (prepartioned_graph_match (built_graph 256 sigs_AB_ABCD) target_ABCDEF
                 [(0, 4); (2, 9)] 2))).
Proof.
  assert (Hb : insert_all sigs_AB_ABCD (new_graph 256) = Ok (tt, built_graph 256 sigs_AB_ABCD))
    by (vm_compute; reflexivity).
  split; [exact Hb|]. split; [lia|].
  apply (prepartioned_ends_in_slices 256 sigs_AB_ABCD tt (built_graph 256 sigs_AB_ABCD)
           target_ABCDEF [(0, 4); (2, 9)] 2 _
           (snd (fst (prepartioned_graph_match (built_graph 256 sigs_AB_ABCD) target_ABCDEF
                        [(0, 4); (2, 9)] 2)))
           (snd (prepartioned_graph_match (built_graph 256 sigs_AB_ABCD) target_ABCDEF
                   [(0, 4); (2, 9)] 2)) Hb).
  - lia.
  - vm_compute. reflexivity.
Defined.
